(** * The apiserver builder ([pkg/builder/builder.go])

    A shallow embedding of the resource-registration builder: the [Server]
    struct, its fluent registration methods, the [singletonProvider] that
    shares one storage between the versions of a resource, the terminal
    [Build] and the aggregate error [errs].

    Go pointers are addresses into explicit heaps, Go maps are [gmap]s, and
    the function values the builder only passes around (handler providers,
    scheme installers) are defunctionalised: a constructor names the function,
    and what an opaque function returns is left to a parameter of the
    development. [sync.Once] is its completion flag: calls are sequential.

    [WithOpenAPIDefinitions], [DisableDelegateAuth], [WithOptionsFns],
    [WithServerFns] and [Execute] touch none of the state modelled here and
    are left out. *)

From stdpp Require Import gmap strings list fin_maps sorting.
From Stdlib Require Import Ascii DecimalString.

(** ** Keys ([k8s.io/apimachinery/pkg/runtime/schema]) *)

Record GroupResource := mkGR { gr_Group : string; gr_Resource : string }.
Record GroupVersion := mkGV { gv_Group : string; gv_Version : string }.
Record GroupVersionResource :=
  mkGVR { Group : string; Version : string; Resource : string }.

Global Instance GroupResource_eq_dec : EqDecision GroupResource.
Proof. solve_decision. Defined.
Global Instance GroupVersion_eq_dec : EqDecision GroupVersion.
Proof. solve_decision. Defined.
Global Instance GroupVersionResource_eq_dec : EqDecision GroupVersionResource.
Proof. solve_decision. Defined.

Global Instance GroupResource_countable : Countable GroupResource.
Proof.
  refine (inj_countable' (fun k => (gr_Group k, gr_Resource k))
            (fun p => mkGR p.1 p.2) _).
  by intros [].
Defined.
Global Instance GroupVersion_countable : Countable GroupVersion.
Proof.
  refine (inj_countable' (fun k => (gv_Group k, gv_Version k))
            (fun p => mkGV p.1 p.2) _).
  by intros [].
Defined.
Global Instance GroupVersionResource_countable : Countable GroupVersionResource.
Proof.
  refine (inj_countable' (fun k => (Group k, Version k, Resource k))
            (fun p => mkGVR p.1.1 p.1.2 p.2) _).
  by intros [].
Defined.

(** [gvr.GroupResource()], [gvr.GroupVersion()], [gv.WithResource(r)] *)
Definition gvr_GroupResource (gvr : GroupVersionResource) : GroupResource :=
  mkGR (Group gvr) (Resource gvr).
Definition gvr_GroupVersion (gvr : GroupVersionResource) : GroupVersion :=
  mkGV (Group gvr) (Version gvr).
Definition gv_WithResource (gv : GroupVersion) (r : string) : GroupVersionResource :=
  mkGVR (gv_Group gv) (gv_Version gv) r.

(** ** Values the builder handles *)

(** Addresses of heap-allocated values (pointers to singletonProvider and to runtime.Scheme). *)
Definition addr := nat.

(** An [error] value, seen through its [Error()] text; [Errorf] is [fmt.Errorf]
    of a constant format. *)
Record error := Errorf { Error : string }.

Global Instance error_eq_dec : EqDecision error.
Proof. solve_decision. Defined.

(** A resource object, seen through what the builder asks of it: its
    [GetGroupVersionResource()] and the interfaces the type switches and type
    assertions of the builder probe. The request objects of sub-resources
    ([runtime.Object]) are values of the same record. *)
Record Object := mkObject {
  obj_id : nat;
  GetGroupVersionResource : GroupVersionResource;
  isCreator : bool;              (* resourcerest.Creator *)
  isUpdater : bool;              (* resourcerest.Updater *)
  isGetter : bool;               (* resourcerest.Getter *)
  isLister : bool;               (* resourcerest.Lister *)
  isObjectWithStatusSubResource : bool;  (* resource.ObjectWithStatusSubResource *)
  isDefaulter : bool             (* resourcestrategy.Defaulter *)
}.

Global Instance Object_eq_dec : EqDecision Object.
Proof. solve_decision. Defined.

(** [rest.ResourceHandlerProvider]: a function value
    from a scheme and an options getter to a storage and an error. The builder never looks into
    one; it stores them and hands them on. Each constructor is one way the
    builder obtains such a value; the last one is the method value [s.Get] of
    the [singletonProvider] at address [s]. *)
Inductive ResourceHandlerProvider :=
  | Func (f : nat)                               (* supplied by the caller *)
  | StaticHandlerProvider_Get (s : Object)       (* rest.StaticHandlerProvider{Storage: s}.Get *)
  | rest_New (obj : Object)
  | rest_NewStatus (obj : Object)
  | rest_NewWithStrategy (obj : Object) (strategy : nat)
  | rest_NewStatusWithStrategy (obj : Object) (strategy : nat)
  | rest_NewWithFn (obj : Object) (fn : nat)
  | rest_NewStatusWithFn (obj : Object) (fn : nat)
  | singletonProvider_Get (s : addr).

Global Instance ResourceHandlerProvider_eq_dec : EqDecision ResourceHandlerProvider.
Proof. solve_decision. Defined.

(** A [regsitryrest.Storage] interface value is the identity of the instance
    behind it; [None] is [nil]. *)
Definition Storage := nat.

(** The arguments of a provider: the scheme and the options getter. *)
Definition Args := (addr * nat)%type.

(** What a provider returns. *)
Definition Result := (option Storage * option error)%type.

(** [singletonProvider]: the embedded [sync.Once] is its completion flag. *)
Record singletonProvider := mkSingleton {
  Once_done : bool;
  Provider : ResourceHandlerProvider;
  sp_storage : option Storage;
  sp_err : option error
}.

(** Functions from a scheme to an error, held by the
    [runtime.SchemeBuilder]. *)
Inductive Installer :=
  | resource_AddToScheme (obj : Object)
  | InstallerFunc (f : nat)            (* WithAdditionalSchemeInstallers *)
  | versionPriorityInstaller.          (* the closure registered by Build *)

Global Instance Installer_eq_dec : EqDecision Installer.
Proof. solve_decision. Defined.

(** An operation applied to a [runtime.Scheme]. A scheme is an external
    object: it is modelled by the operations applied to it so far. *)
Inductive SchemeOp :=
  | AddTypeDefaultingFunc (scheme : addr) (obj : Object)
  | Install (scheme : addr) (fn : Installer)
  | SetVersionPriority (scheme : addr) (gvs : list GroupVersion)
  | AddToGroupVersion (scheme : addr) (gv : GroupVersion).

(** ** The builder *)

Record Server := mkServer {
  errs : list error;
  storage : gmap GroupResource addr;
  groupVersions : option (gmap GroupVersion bool);   (* [None] is the nil map *)
  orderedGroupVersions : list GroupVersion;
  schemes : list addr;
  schemeBuilder : list Installer
}.

(** The receiver [a] together with everything else the builder reads and
    writes: the package-level [apiserver.APIs] map, the heap of
    [singletonProvider]s, the operations applied to schemes, and the
    invocations of opaque providers. *)
Record World := mkWorld {
  a : Server;
  APIs : gmap GroupVersionResource ResourceHandlerProvider;
  heap : gmap addr singletonProvider;
  schemeOps : list SchemeOp;
  invocations : list (ResourceHandlerProvider * Args)
}.

(** [apiserver.Scheme] *)
Definition apiserver_Scheme : addr := 0.

(** [var APIServer = &Server{storage: map[schema.GroupResource]*singletonProvider{}}] *)
Definition APIServer : Server :=
  mkServer [] ∅ None [] [] [].

(** The state of a fresh process. *)
Definition init : World := mkWorld APIServer ∅ ∅ [] [].

Definition set_a (f : Server -> Server) (w : World) : World :=
  mkWorld (f (a w)) (APIs w) (heap w) (schemeOps w) (invocations w).

(** [a.schemeBuilder.Register(fns...)] *)
Definition schemeBuilder_Register (fns : list Installer) (s : Server) : Server :=
  mkServer (errs s) (storage s) (groupVersions s) (orderedGroupVersions s)
           (schemes s) (schemeBuilder s ++ fns).

Definition WithAdditionalSchemeInstallers (fns : list nat) (w : World) : World :=
  set_a (schemeBuilder_Register (InstallerFunc <$> fns)) w.

Definition WithAdditionalSchemesToBuild (s : list addr) (w : World) : World :=
  set_a (fun x => mkServer (errs x) (storage x) (groupVersions x)
                    (orderedGroupVersions x) (schemes x ++ s) (schemeBuilder x)) w.

(** [_, found := m[gv]] on a possibly nil map *)
Definition gv_found (m : option (gmap GroupVersion bool)) (gv : GroupVersion) : bool :=
  match m with
  | Some m => bool_decide (is_Some (m !! gv))
  | None => false
  end.

Definition set_groupVersions (m : option (gmap GroupVersion bool))
    (ordered : list GroupVersion) (s : Server) : Server :=
  mkServer (errs s) (storage s) m ordered (schemes s) (schemeBuilder s).

(** The body of the loop of [withGroupVersions]; the map is not nil there. *)
Definition withGroupVersion (s : Server) (gv : GroupVersion) : Server :=
  if gv_found (groupVersions s) gv then s
  else set_groupVersions (Some (<[gv := true]> (default ∅ (groupVersions s))))
         (orderedGroupVersions s ++ [gv]) s.

Definition withGroupVersions (versions : list GroupVersion) (s : Server) : Server :=
  let s := match groupVersions s with
           | None => set_groupVersions (Some ∅) (orderedGroupVersions s) s
           | Some _ => s
           end in
  foldl withGroupVersion s versions.

(** [&singletonProvider{Provider: sp}] *)
Definition new_singletonProvider (sp : ResourceHandlerProvider) : singletonProvider :=
  mkSingleton false sp None None.

Definition forGroupVersionResource
    (gvr : GroupVersionResource) (obj : Object) (sp : ResourceHandlerProvider)
    (w : World) : World :=
  (* register the group version *)
  let s := withGroupVersions [gvr_GroupVersion gvr] (a w) in
  (* don't replace the existing instance *)
  let '(s, h) :=
    match storage s !! gvr_GroupResource gvr with
    | Some _ => (s, heap w)
    | None =>
        let p := fresh (dom (heap w)) in
        (mkServer (errs s) (<[gvr_GroupResource gvr := p]> (storage s))
                  (groupVersions s) (orderedGroupVersions s)
                  (schemes s) (schemeBuilder s),
         <[p := new_singletonProvider sp]> (heap w))
    end in
  (* add the defaulting function for this version to the scheme *)
  let ops := if isDefaulter obj
             then schemeOps w ++ [AddTypeDefaultingFunc apiserver_Scheme obj]
             else schemeOps w in
  (* add the API with its storage *)
  mkWorld s (<[gvr := sp]> (APIs w)) h ops (invocations w).

(** [gvr.GroupVersion().WithResource(gvr.Resource + "/status")] *)
Definition status_gvr (gvr : GroupVersionResource) : GroupVersionResource :=
  gv_WithResource (gvr_GroupVersion gvr) (Resource gvr +:+ "/status").

Definition WithResource (obj : Object) (w : World) : World :=
  let gvr := GetGroupVersionResource obj in
  let w := set_a (schemeBuilder_Register [resource_AddToScheme obj]) w in
  (* reuse the storage if this resource has already been registered *)
  match storage (a w) !! gvr_GroupResource gvr with
  | Some s => forGroupVersionResource gvr obj (singletonProvider_Get s) w
  | None =>
      (* If the type implements it's own storage, then use that *)
      if isCreator obj then
        forGroupVersionResource gvr obj (StaticHandlerProvider_Get obj) w
      else if isUpdater obj then
        forGroupVersionResource gvr obj (StaticHandlerProvider_Get obj) w
      else if isGetter obj then
        forGroupVersionResource gvr obj (StaticHandlerProvider_Get obj) w
      else if isLister obj then
        forGroupVersionResource gvr obj (StaticHandlerProvider_Get obj) w
      else
        let w := forGroupVersionResource gvr obj (rest_New obj) w in
        (* automatically create status subresource *)
        if isObjectWithStatusSubResource obj then
          let st := status_gvr gvr in
          match storage (a w) !! gvr_GroupResource st with
          | Some s => forGroupVersionResource st obj (singletonProvider_Get s) w
          | None => forGroupVersionResource st obj (rest_NewStatus obj) w
          end
        else w
  end.

Definition WithResourceAndStrategy (obj : Object) (strategy : nat) (w : World) : World :=
  let gvr := GetGroupVersionResource obj in
  let w := set_a (schemeBuilder_Register [resource_AddToScheme obj]) w in
  let w := forGroupVersionResource gvr obj (rest_NewWithStrategy obj strategy) w in
  if isObjectWithStatusSubResource obj then
    forGroupVersionResource (status_gvr gvr) obj
      (rest_NewStatusWithStrategy obj strategy) w
  else w.

Definition WithResourceAndHandler (obj : Object) (sp : ResourceHandlerProvider)
    (w : World) : World :=
  let gvr := GetGroupVersionResource obj in
  let w := set_a (schemeBuilder_Register [resource_AddToScheme obj]) w in
  forGroupVersionResource gvr obj sp w.

Definition WithResourceAndStorage (obj : Object) (fn : nat) (w : World) : World :=
  let gvr := GetGroupVersionResource obj in
  let w := set_a (schemeBuilder_Register [resource_AddToScheme obj]) w in
  let w := forGroupVersionResource gvr obj (rest_NewWithFn obj fn) w in
  if isObjectWithStatusSubResource obj then
    forGroupVersionResource (status_gvr gvr) obj (rest_NewStatusWithFn obj fn) w
  else w.

(** [gvr := parent.GetGroupVersionResource();
     gvr.Resource = gvr.Resource + "/" + subResourcePath] *)
Definition subresource_gvr (parent : Object) (subResourcePath : string)
    : GroupVersionResource :=
  let gvr := GetGroupVersionResource parent in
  mkGVR (Group gvr) (Version gvr) (Resource gvr +:+ "/" +:+ subResourcePath).

Definition subresource_error : error :=
  Errorf "subresources must be registered with a strategy or handler the first time they are registered".

Definition WithSubResource (parent : Object) (subResourcePath : string)
    (request : Object) (w : World) : World :=
  let gvr := subresource_gvr parent subResourcePath in
  (* reuse the storage if this resource has already been registered *)
  match storage (a w) !! gvr_GroupResource gvr with
  | Some s => forGroupVersionResource gvr request (singletonProvider_Get s) w
  | None =>
      set_a (fun x => mkServer (errs x ++ [subresource_error]) (storage x)
                        (groupVersions x) (orderedGroupVersions x)
                        (schemes x) (schemeBuilder x)) w
  end.

Definition WithSubResourceAndStrategy (parent : Object) (subResourcePath : string)
    (request : Object) (strategy : nat) (w : World) : World :=
  forGroupVersionResource (subresource_gvr parent subResourcePath) request
    (rest_NewWithStrategy request strategy) w.

Definition WithSubResourceAndHandler (parent : Object) (subResourcePath : string)
    (request : Object) (sp : ResourceHandlerProvider) (w : World) : World :=
  forGroupVersionResource (subresource_gvr parent subResourcePath) request sp w.

(** ** Calling providers *)

Definition is_opaque (sp : ResourceHandlerProvider) : bool :=
  match sp with
  | singletonProvider_Get _ => false
  | _ => true
  end.

Definition set_heap (h : gmap addr singletonProvider) (w : World) : World :=
  mkWorld (a w) (APIs w) h (schemeOps w) (invocations w).

Definition record_invocation (sp : ResourceHandlerProvider) (args : Args)
    (w : World) : World :=
  mkWorld (a w) (APIs w) (heap w) (schemeOps w) (invocations w ++ [(sp, args)]).

(** [singletonProvider.Get], given how function values are called.
    [s.Once.Do(f)] runs [f] unless the flag is set and sets the flag when [f]
    has returned; the method then returns the two fields. A call that does
    not return is [None]. *)
Definition Get_body
    (call : ResourceHandlerProvider -> Args -> World -> option (Result * World))
    (s : addr) (args : Args) (w : World) : option (Result * World) :=
  match heap w !! s with
  | None => None
  | Some sv =>
      if Once_done sv then Some ((sp_storage sv, sp_err sv), w)
      else
        match call (Provider sv) args w with
        | None => None
        | Some (r, w) =>
            Some (r, set_heap (<[s := mkSingleton true (Provider sv) r.1 r.2]> (heap w)) w)
        end
  end.

Section Providers.

(** What an opaque provider returns, given the invocations of opaque
    providers so far: any deterministic behaviour, among them factories
    that build a new storage at every call. *)
Variable behave :
  list (ResourceHandlerProvider * Args) -> ResourceHandlerProvider -> Args -> Result.

(** Calling a function value of type [rest.ResourceHandlerProvider]. The
    fuel bounds the nesting of [singletonProvider]s; a [Get] that re-enters
    its own [Once] never returns, whatever the fuel. *)
Fixpoint call (fuel : nat) (sp : ResourceHandlerProvider) (args : Args)
    (w : World) : option (Result * World) :=
  match fuel with
  | 0 => None
  | S fuel =>
      match sp with
      | singletonProvider_Get s => Get_body (call fuel) s args w
      | _ => Some (behave (invocations w) sp args, record_invocation sp args w)
      end
  end.

Definition Get (fuel : nat) (s : addr) (args : Args) (w : World)
    : option (Result * World) :=
  Get_body (call fuel) s args w.

(** A sequence of [Get] calls on one [singletonProvider]. *)
Fixpoint Gets (fuel : nat) (s : addr) (argss : list Args) (w : World)
    : option (list Result * World) :=
  match argss with
  | [] => Some ([], w)
  | args :: argss =>
      match Get fuel s args w with
      | None => None
      | Some (r, w) =>
          match Gets fuel s argss w with
          | None => None
          | Some (rs, w) => Some (r :: rs, w)
          end
      end
  end.

(** Calling the provider bound to [gvr] in [apiserver.APIs], which is how
    the serving layer obtains the handler of a version of a resource. *)
Definition retrieve (fuel : nat) (gvr : GroupVersionResource) (args : Args)
    (w : World) : option (Result * World) :=
  match APIs w !! gvr with
  | None => None
  | Some sp => call fuel sp args w
  end.

End Providers.

(** ** The aggregate error *)

(** The type [errs]; the field of that name of [Server] keeps the name here. *)
Record errs_t := mk_errs { errs_list : list error }.

Definition newline : ascii := "010"%char.

(** [fmt.Sprintf("%d", n)] *)
Definition Sprintf_d (n : nat) : string := NilEmpty.string_of_uint (Nat.to_uint n).

(** [strings.Join(elems, sep)] *)
Fixpoint strings_Join (elems : list string) (sep : string) : string :=
  match elems with
  | [] => ""
  | [x] => x
  | x :: xs => x +:+ sep +:+ strings_Join xs sep
  end.

Definition errs_Error (e : errs_t) : string :=
  let msgs := [Sprintf_d (length (errs_list e)) +:+ " errors: "] in
  let msgs := foldl (fun msgs x => msgs ++ [Error x]) msgs (errs_list e) in
  strings_Join msgs (String newline "").

(** The lines of a text: the pieces between its line breaks. *)
Fixpoint lines (s : string) : list string :=
  match s with
  | "" => [""]
  | String c s =>
      if decide (c = newline) then "" :: lines s
      else match lines s with
           | [] => [String c ""]
           | l :: ls => String c l :: ls
           end
  end.

Fixpoint has_newline (s : string) : bool :=
  match s with
  | "" => false
  | String c s => bool_decide (c = newline) || has_newline s
  end.

(** [s] occurs in [t]. *)
Definition contains (t s : string) : Prop := exists pre post, t = pre +:+ s +:+ post.

(** ** Build *)

(** [sets.String.List()]: the elements in increasing order of Go's [<] on
    strings, which compares them byte by byte, as [String.le] does. *)
Definition sets_String_List (s : gset string) : list string :=
  merge_sort String.le (elements s).

(** The first loop of the installer that [Build] registers: the versions of
    every group, from the keys of [apiserver.APIs]. *)
Definition insertGroupVersion (gvr : GroupVersionResource)
    (groupVersions : gmap string (gset string)) : gmap string (gset string) :=
  <[Group gvr := {[Version gvr]} ∪ default ∅ (groupVersions !! Group gvr)]> groupVersions.

Definition collectGroupVersions
    (apis : gmap GroupVersionResource ResourceHandlerProvider)
    : gmap string (gset string) :=
  map_fold (fun gvr _ m => insertGroupVersion gvr m) ∅ apis.

(** The argument [gvs] of [scheme.SetVersionPriority(gvs...)] for a group. *)
Definition priorityArgs (g : string) (versions : gset string) : list GroupVersion :=
  mkGV g <$> sets_String_List versions.


(** [*Command], seen through the versions it was made for. *)
Record Command := NewCommandStartServer { cmd_versions : list GroupVersion }.

(** How a call of [Build] ends. *)
Inductive BuildOutcome :=
  | Return (cmd : option Command) (err : option errs_t)
  | Panic (err : error).

Definition log_op (op : SchemeOp) (w : World) : World :=
  mkWorld (a w) (APIs w) (heap w) (schemeOps w ++ [op]) (invocations w).

(** The first two statements of [Build]: [apiserver.Scheme] joins the
    schemes to build, and the installer of the version priorities joins the
    scheme builder. *)
Definition Build_register (w : World) : World :=
  let w := WithAdditionalSchemesToBuild [apiserver_Scheme] w in
  set_a (schemeBuilder_Register [versionPriorityInstaller]) w.

Section Schemes.

(** The error, if any, that an operation on a scheme returns, given the
    operations applied before it. *)
Variable fails : list SchemeOp -> SchemeOp -> option error.

Definition apply_op (op : SchemeOp) (w : World) : option error * World :=
  (fails (schemeOps w) op, log_op op w).

(** The second loop: one [SetVersionPriority] per group, until one fails.
    Go leaves the order of the groups open; the argument of each call does
    not depend on it. *)
Fixpoint setVersionPriorities (scheme : addr)
    (groups : list (string * gset string)) (w : World) : option error * World :=
  match groups with
  | [] => (None, w)
  | (g, versions) :: groups =>
      match apply_op (SetVersionPriority scheme (priorityArgs g versions)) w with
      | (Some err, w) => (Some err, w)
      | (None, w) => setVersionPriorities scheme groups w
      end
  end.

Definition run_versionPriorityInstaller (scheme : addr) (w : World)
    : option error * World :=
  match setVersionPriorities scheme
          (map_to_list (collectGroupVersions (APIs w))) w with
  | (Some err, w) => (Some err, w)
  | (None, w) =>
      (None, foldl (fun w gv => log_op (AddToGroupVersion scheme gv) w) w
               (orderedGroupVersions (a w)))
  end.

Definition run_installer (fn : Installer) (scheme : addr) (w : World)
    : option error * World :=
  match fn with
  | versionPriorityInstaller => run_versionPriorityInstaller scheme w
  | _ => apply_op (Install scheme fn) w
  end.

(** [runtime.SchemeBuilder.AddToScheme]: the functions in order, up to the
    first error. *)
Fixpoint AddToScheme (fns : list Installer) (scheme : addr) (w : World)
    : option error * World :=
  match fns with
  | [] => (None, w)
  | fn :: fns =>
      match run_installer fn scheme w with
      | (Some err, w) => (Some err, w)
      | (None, w) => AddToScheme fns scheme w
      end
  end.

(** The loop over [a.schemes] in [Build]; [Some err] is [panic(err)]. *)
Fixpoint AddToSchemes (ss : list addr) (w : World) : option error * World :=
  match ss with
  | [] => (None, w)
  | scheme :: ss =>
      match AddToScheme (schemeBuilder (a w)) scheme w with
      | (Some err, w) => (Some err, w)
      | (None, w) => AddToSchemes ss w
      end
  end.

Definition Build (w : World) : BuildOutcome * World :=
  let w := Build_register w in
  match AddToSchemes (schemes (a w)) w with
  | (Some err, w) => (Panic err, w)
  | (None, w) =>
      if negb (length (errs (a w)) =? 0)
      then (Return None (Some (mk_errs (errs (a w)))), w)
      else (Return (Some (NewCommandStartServer (orderedGroupVersions (a w)))) None, w)
  end.

End Schemes.

(** ** Sequences of registrations *)

Inductive Registration :=
  | RWithResource (obj : Object)
  | RWithResourceAndStrategy (obj : Object) (strategy : nat)
  | RWithResourceAndHandler (obj : Object) (sp : ResourceHandlerProvider)
  | RWithResourceAndStorage (obj : Object) (fn : nat)
  | RWithSubResource (parent : Object) (subResourcePath : string) (request : Object)
  | RWithSubResourceAndStrategy (parent : Object) (subResourcePath : string)
      (request : Object) (strategy : nat)
  | RWithSubResourceAndHandler (parent : Object) (subResourcePath : string)
      (request : Object) (sp : ResourceHandlerProvider)
  | RWithAdditionalSchemeInstallers (fns : list nat)
  | RWithAdditionalSchemesToBuild (s : list addr).

Definition register (r : Registration) (w : World) : World :=
  match r with
  | RWithResource obj => WithResource obj w
  | RWithResourceAndStrategy obj strategy => WithResourceAndStrategy obj strategy w
  | RWithResourceAndHandler obj sp => WithResourceAndHandler obj sp w
  | RWithResourceAndStorage obj fn => WithResourceAndStorage obj fn w
  | RWithSubResource parent path request => WithSubResource parent path request w
  | RWithSubResourceAndStrategy parent path request strategy =>
      WithSubResourceAndStrategy parent path request strategy w
  | RWithSubResourceAndHandler parent path request sp =>
      WithSubResourceAndHandler parent path request sp w
  | RWithAdditionalSchemeInstallers fns => WithAdditionalSchemeInstallers fns w
  | RWithAdditionalSchemesToBuild s => WithAdditionalSchemesToBuild s w
  end.

(** The fluent chain: the calls applied from left to right. *)
Definition chain (rs : list Registration) (w : World) : World :=
  foldl (fun w r => register r w) w rs.

(** ** Sample values *)

(** Two versions of one resource, both with a status sub-resource and
    neither serving itself. *)
Definition widgets_v1 : Object :=
  mkObject 1 (mkGVR "apps" "v1" "widgets") false false false false true false.
Definition widgets_v2 : Object :=
  mkObject 2 (mkGVR "apps" "v2" "widgets") false false false false true false.

(** Factories that build a new storage at every call, as [rest.New] does:
    the storage is numbered by the calls made before. *)
Definition fresh_storage
    : list (ResourceHandlerProvider * Args) -> ResourceHandlerProvider -> Args -> Result :=
  fun calls _ _ => (Some (length calls), None).

(** Schemes on which every operation succeeds. *)
Definition no_failure : list SchemeOp -> SchemeOp -> option error :=
  fun _ _ => None.

(** Schemes on which the installer [f] of the caller fails with [err]. *)
Definition installer_fails (f : nat) (err : error)
    : list SchemeOp -> SchemeOp -> option error :=
  fun _ op =>
    match op with
    | Install _ (InstallerFunc g) => if g =? f then Some err else None
    | _ => None
    end.

(** ** The states the builder reaches *)

(** The group-versions that are keys of [a.groupVersions]. *)
Definition groupVersions_keys (m : option (gmap GroupVersion bool)) : gset GroupVersion :=
  match m with
  | Some m => dom m
  | None => ∅
  end.

Record builder_inv (w : World) : Prop := mk_builder_inv {
  inv_NoDup : NoDup (orderedGroupVersions (a w));
  inv_keys : forall gv,
    gv ∈ orderedGroupVersions (a w) <-> gv ∈ groupVersions_keys (groupVersions (a w));
  inv_APIs : forall gv,
    gv ∈ orderedGroupVersions (a w)
    <-> exists r, is_Some (APIs w !! gv_WithResource gv r);
  inv_storage : forall gr s,
    storage (a w) !! gr = Some s -> is_Some (heap w !! s)
}.

(** A provider that is registered stays registered, at its address and with
    its fields. *)
Definition keeps (gr : GroupResource) (s : addr) (sv : singletonProvider)
    (w : World) : Prop :=
  storage (a w) !! gr = Some s /\ heap w !! s = Some sv.

(** The messages after the first one of a [strings.Join], each behind its
    separator. *)
Fixpoint separated (sep : string) (msgs : list string) : string :=
  match msgs with
  | [] => ""
  | m :: msgs => sep +:+ m +:+ separated sep msgs
  end.

(** ** More sample values and notions for the properties *)

Definition widgets_v3 : Object :=
  mkObject 3 (mkGVR "apps" "v3" "widgets") false false false false true false.

(** An object that serves itself: it implements [resourcerest.Getter]. *)
Definition gadgets_v1 : Object :=
  mkObject 4 (mkGVR "apps" "v1" "gadgets") false false true false true false.

(** What a registration call may do to providers: call none, leave those
    that exist as they are, and add new ones that have not run. *)
Definition lazy_step (w w' : World) : Prop :=
  invocations w' = invocations w
  /\ (forall s sv, heap w !! s = Some sv -> heap w' !! s = Some sv)
  /\ (forall s sv, heap w !! s = None -> heap w' !! s = Some sv ->
        exists sp, sv = new_singletonProvider sp).

(** The storage map and the heap of providers go together: a group-resource
    has a provider exactly when one of its versions is bound, no provider
    serves two group-resources, the heap holds the providers of the storage
    map and no other, and none of them has run. *)
Record registry_inv (w : World) : Prop := mk_registry_inv {
  reg_bound : forall gr,
    is_Some (storage (a w) !! gr)
    <-> exists v, is_Some (APIs w !! mkGVR (gr_Group gr) v (gr_Resource gr));
  reg_inj : forall gr1 gr2 s,
    storage (a w) !! gr1 = Some s -> storage (a w) !! gr2 = Some s -> gr1 = gr2;
  reg_heap : forall s,
    is_Some (heap w !! s) <-> exists gr, storage (a w) !! gr = Some s;
  reg_fresh : forall s sv, heap w !! s = Some sv -> Once_done sv = false
}.

(** A registration call whose provider, when the caller supplies one, is a
    function of the caller: callers cannot name the [Get] of a
    [singletonProvider], the type is not exported. *)
Definition opaque_registration (r : Registration) : Prop :=
  match r with
  | RWithResourceAndHandler _ sp => is_opaque sp = true
  | RWithSubResourceAndHandler _ _ _ sp => is_opaque sp = true
  | _ => True
  end.

(** No provider wraps the [Get] of a provider, and a key bound to the [Get]
    of a provider is bound to the provider of its own group-resource. *)
Record unchained (w : World) : Prop := mk_unchained {
  unchained_heap : forall s sv, heap w !! s = Some sv -> is_opaque (Provider sv) = true;
  unchained_APIs : forall gvr s,
    APIs w !! gvr = Some (singletonProvider_Get s) ->
    storage (a w) !! gvr_GroupResource gvr = Some s
}.

(** The registration calls that record an error when no provider exists. *)
Definition is_WithSubResource (r : Registration) : bool :=
  match r with
  | RWithSubResource _ _ _ => true
  | _ => false
  end.

(** What a registration call registers with the scheme builder, and the
    schemes it adds to those to build. *)
Definition installers_of (r : Registration) : list Installer :=
  match r with
  | RWithResource obj => [resource_AddToScheme obj]
  | RWithResourceAndStrategy obj _ => [resource_AddToScheme obj]
  | RWithResourceAndHandler obj _ => [resource_AddToScheme obj]
  | RWithResourceAndStorage obj _ => [resource_AddToScheme obj]
  | RWithAdditionalSchemeInstallers fns => InstallerFunc <$> fns
  | _ => []
  end.

Definition schemes_of (r : Registration) : list addr :=
  match r with
  | RWithAdditionalSchemesToBuild s => s
  | _ => []
  end.




(** The operations [Build] applies when none fails: for a scheme and an
    installer, for a scheme and all installers, for all schemes. *)
Definition installer_ops (apis : gmap GroupVersionResource ResourceHandlerProvider)
    (ordered : list GroupVersion) (scheme : addr) (fn : Installer) : list SchemeOp :=
  match fn with
  | versionPriorityInstaller =>
      ((fun gvs => SetVersionPriority scheme (priorityArgs gvs.1 gvs.2))
         <$> map_to_list (collectGroupVersions apis))
      ++ (AddToGroupVersion scheme <$> ordered)
  | _ => [Install scheme fn]
  end.

Definition scheme_ops (apis : gmap GroupVersionResource ResourceHandlerProvider)
    (ordered : list GroupVersion) (fns : list Installer) (scheme : addr)
    : list SchemeOp :=
  concat (installer_ops apis ordered scheme <$> fns).

Definition build_ops (apis : gmap GroupVersionResource ResourceHandlerProvider)
    (ordered : list GroupVersion) (fns : list Installer) (ss : list addr)
    : list SchemeOp :=
  concat (scheme_ops apis ordered fns <$> ss).

Section Runs.

Variable fails : list SchemeOp -> SchemeOp -> option error.

(** A run of installers from [w] that ends in [res], [expected] being the
    operations of a run without failure: the run touches the schemes only,
    the operations it applies are the first ones of [expected], all of them
    when it ends without error, and it ends without error when no operation
    fails. *)
Definition runs (res : option error * World) (w : World)
    (expected : list SchemeOp) : Prop :=
  exists ops,
    a res.2 = a w /\ APIs res.2 = APIs w /\ heap res.2 = heap w
    /\ invocations res.2 = invocations w
    /\ schemeOps res.2 = schemeOps w ++ ops
    /\ ops `prefix_of` expected
    /\ (res.1 = None -> ops = expected)
    /\ ((forall l op, fails l op = None) -> res.1 = None).

End Runs.

(** ** Execute *)

(** The [error] that [Execute] returns is the aggregate error of [Build] or
    the error of the command; [Execute] panics when [Build] does. *)
Inductive ExecuteOutcome :=
  | ExecuteReturn (err : option (errs_t + error))
  | ExecutePanic (err : error).

Section Execute.

(** [cmd.Execute()], which belongs to the command. *)
Variable cmd_Execute : Command -> option error.
Variable fails : list SchemeOp -> SchemeOp -> option error.

Definition Execute (w : World) : ExecuteOutcome * World :=
  match Build fails w with
  | (Panic err, w) => (ExecutePanic err, w)
  | (Return _ (Some err), w) => (ExecuteReturn (Some (inl err)), w)
  | (Return (Some cmd) None, w) => (ExecuteReturn (inr <$> cmd_Execute cmd), w)
  | (Return None None, w) =>
      (* a method call on a nil command *)
      (ExecutePanic (Errorf "invalid memory address or nil pointer dereference"), w)
  end.

End Execute.

(** ** What a registration call registers *)

(** The key a registration call is for, when it is for one. *)
Definition registered_key (r : Registration) : option GroupVersionResource :=
  match r with
  | RWithResource obj => Some (GetGroupVersionResource obj)
  | RWithResourceAndStrategy obj _ => Some (GetGroupVersionResource obj)
  | RWithResourceAndHandler obj _ => Some (GetGroupVersionResource obj)
  | RWithResourceAndStorage obj _ => Some (GetGroupVersionResource obj)
  | RWithSubResource parent path _ => Some (subresource_gvr parent path)
  | RWithSubResourceAndStrategy parent path _ _ => Some (subresource_gvr parent path)
  | RWithSubResourceAndHandler parent path _ _ => Some (subresource_gvr parent path)
  | RWithAdditionalSchemeInstallers _ => None
  | RWithAdditionalSchemesToBuild _ => None
  end.

(** A list of group-versions once [gv] has been observed. *)
Definition observe (gv : GroupVersion) (ordered : list GroupVersion)
    : list GroupVersion :=
  if decide (gv ∈ ordered) then ordered else ordered ++ [gv].

(** [w'] is a state of the builder in which the key [gvr] is bound and its
    group-version is the one thing observed since [w]. *)
Definition registers (gvr : GroupVersionResource) (w w' : World) : Prop :=
  builder_inv w'
  /\ is_Some (APIs w' !! gvr)
  /\ orderedGroupVersions (a w')
     = observe (gvr_GroupVersion gvr) (orderedGroupVersions (a w)).

(** * Properties *)

(** ** The singleton provider *)

Section ProviderFacts.

Variable behave :
  list (ResourceHandlerProvider * Args) -> ResourceHandlerProvider -> Args -> Result.

Lemma call_opaque fuel sp args w :
  is_opaque sp = true ->
  call behave (S fuel) sp args w
  = Some (behave (invocations w) sp args, record_invocation sp args w).
Proof. by destruct sp. Qed.

(** Once the flag is set, [Get] returns the two fields and changes nothing. *)
Lemma Get_done fuel s sv args w :
  heap w !! s = Some sv -> Once_done sv = true ->
  Get behave fuel s args w = Some ((sp_storage sv, sp_err sv), w).
Proof. intros Hs Hd. unfold Get, Get_body. by rewrite Hs, Hd. Qed.

Lemma Gets_done fuel s sv argss w :
  heap w !! s = Some sv -> Once_done sv = true ->
  Gets behave fuel s argss w
  = Some (replicate (length argss) (sp_storage sv, sp_err sv), w).
Proof.
  intros Hs Hd. induction argss as [|args argss IH]; [done|].
  simpl. by rewrite (Get_done _ _ sv), IH.
Qed.

(** The first [Get] calls the wrapped provider, whatever it is, and keeps
    what it returned. *)
Lemma Get_first fuel s sv args w r w1 :
  heap w !! s = Some sv -> Once_done sv = false ->
  call behave fuel (Provider sv) args w = Some (r, w1) ->
  Get behave fuel s args w
  = Some (r, set_heap (<[s := mkSingleton true (Provider sv) r.1 r.2]> (heap w1)) w1).
Proof. intros Hs Hd Hc. unfold Get, Get_body. by rewrite Hs, Hd, Hc. Qed.

(** A sequence of [Get]s costs one call of the wrapped provider: the world
    after the sequence is the world after that one call, with the result
    stored. *)
Lemma Gets_first fuel s sv args argss w r w1 :
  heap w !! s = Some sv -> Once_done sv = false ->
  call behave fuel (Provider sv) args w = Some (r, w1) ->
  Gets behave fuel s (args :: argss) w
  = Some (replicate (S (length argss)) r,
          set_heap (<[s := mkSingleton true (Provider sv) r.1 r.2]> (heap w1)) w1).
Proof.
  intros Hs Hd Hc. simpl. rewrite (Get_first _ _ sv _ _ r w1) by done.
  rewrite (Gets_done _ _ (mkSingleton true (Provider sv) r.1 r.2)).
  - by destruct r.
  - simpl. apply lookup_insert_eq.
  - done.
Qed.

End ProviderFacts.

(** C1. A fresh [singletonProvider] that wraps a factory [Provider sv]: in any
    non-empty sequence of [Get] calls, with any arguments, the factory is
    invoked exactly once, by the first [Get] and with its arguments; every
    [Get] of the sequence returns the pair the factory returned then, error
    included, and that pair is what the provider keeps. *)
Theorem singletonProvider_Get_once
    (behave : list (ResourceHandlerProvider * Args) -> ResourceHandlerProvider -> Args -> Result)
    (fuel : nat) (s : addr) (sv : singletonProvider)
    (args : Args) (argss : list Args) (w : World) :
  heap w !! s = Some sv ->
  Once_done sv = false ->
  is_opaque (Provider sv) = true ->
  let r := behave (invocations w) (Provider sv) args in
  exists w',
    Gets behave (S fuel) s (args :: argss) w = Some (replicate (S (length argss)) r, w')
    /\ invocations w' = invocations w ++ [(Provider sv, args)]
    /\ heap w' !! s = Some (mkSingleton true (Provider sv) r.1 r.2)
    /\ forall args', Get behave (S fuel) s args' w' = Some (r, w').
Proof.
  intros Hs Hd Ho r. eexists. split; [|split; [|split]].
  - eapply Gets_first; [done..|]. by apply call_opaque.
  - done.
  - simpl. apply lookup_insert_eq.
  - intros args'. erewrite Get_done; [|apply lookup_insert_eq|done].
    simpl. by destruct r.
Qed.

(** A factory that fails, asked three times. *)
Lemma singletonProvider_Get_once_witness :
  let behave := fun _ _ _ => (None, Some (Errorf "no storage")) in
  let w := mkWorld APIServer ∅ {[ 0 := new_singletonProvider (Func 1) ]} [] [] in
  exists w',
    Gets behave 1 0 [(0, 0); (0, 1); (0, 2)] w
    = Some (replicate 3 (None, Some (Errorf "no storage")), w')
    /\ invocations w' = [(Func 1, (0, 0))].
Proof.
  intros behave w.
  destruct (singletonProvider_Get_once behave 0 0 (new_singletonProvider (Func 1))
              (0, 0) [(0, 1); (0, 2)] w) as (w' & H1 & H2 & _).
  - reflexivity.
  - reflexivity.
  - reflexivity.
  - exists w'. split; [exact H1|exact H2].
Defined.

(** ** Registration *)

Lemma gv_found_keys m gv : gv_found m gv = true <-> gv ∈ groupVersions_keys m.
Proof.
  destruct m as [m|]; simpl.
  - by rewrite bool_decide_eq_true, elem_of_dom.
  - set_solver.
Qed.

Lemma withGroupVersion_frame s gv :
  errs (withGroupVersion s gv) = errs s
  /\ storage (withGroupVersion s gv) = storage s
  /\ schemes (withGroupVersion s gv) = schemes s
  /\ schemeBuilder (withGroupVersion s gv) = schemeBuilder s.
Proof. unfold withGroupVersion. by destruct (gv_found _ _). Qed.

Lemma withGroupVersions_frame versions s :
  errs (withGroupVersions versions s) = errs s
  /\ storage (withGroupVersions versions s) = storage s
  /\ schemes (withGroupVersions versions s) = schemes s
  /\ schemeBuilder (withGroupVersions versions s) = schemeBuilder s.
Proof.
  unfold withGroupVersions.
  set (s0 := match groupVersions s with
             | None => _
             | Some _ => s
             end).
  assert (H0 : errs s0 = errs s /\ storage s0 = storage s
               /\ schemes s0 = schemes s /\ schemeBuilder s0 = schemeBuilder s).
  { subst s0. by destruct (groupVersions s). }
  clearbody s0. revert s0 H0.
  induction versions as [|gv versions IH]; intros s0 H0; simpl; [done|].
  apply IH. destruct (withGroupVersion_frame s0 gv) as (-> & -> & -> & ->). done.
Qed.

(** What one observed group-version does to the two version fields. *)
Lemma withGroupVersions_single gv s :
  (gv ∈ groupVersions_keys (groupVersions s) ->
   orderedGroupVersions (withGroupVersions [gv] s) = orderedGroupVersions s
   /\ groupVersions (withGroupVersions [gv] s) = groupVersions s)
  /\ (gv ∉ groupVersions_keys (groupVersions s) ->
      orderedGroupVersions (withGroupVersions [gv] s) = orderedGroupVersions s ++ [gv]
      /\ groupVersions_keys (groupVersions (withGroupVersions [gv] s))
         = {[gv]} ∪ groupVersions_keys (groupVersions s)).
Proof.
  unfold withGroupVersions, withGroupVersion. simpl.
  destruct (groupVersions s) as [m|] eqn:Hm; simpl.
  - rewrite Hm. simpl. case_bool_decide as Hf; rewrite <- elem_of_dom in Hf.
    + split; [by rewrite Hm|done].
    + split; [done|]. intros _. simpl. split; [done|]. by rewrite dom_insert_L.
  - rewrite bool_decide_eq_false_2 by (rewrite lookup_empty; by intros []).
    simpl. split; [set_solver|]. intros _. split; [done|].
    rewrite dom_insert_L. set_solver.
Qed.

(** [forGroupVersionResource], field by field. *)
Lemma forGroupVersionResource_APIs gvr obj sp w :
  APIs (forGroupVersionResource gvr obj sp w) = <[gvr := sp]> (APIs w).
Proof.
  unfold forGroupVersionResource.
  by destruct (storage _ !! _).
Qed.

Lemma forGroupVersionResource_found gvr obj sp w s :
  storage (a w) !! gvr_GroupResource gvr = Some s ->
  storage (a (forGroupVersionResource gvr obj sp w)) = storage (a w)
  /\ heap (forGroupVersionResource gvr obj sp w) = heap w.
Proof.
  intros Hs. unfold forGroupVersionResource.
  destruct (withGroupVersions_frame [gvr_GroupVersion gvr] (a w)) as (_ & Hst & _).
  cbv zeta. rewrite Hst, Hs. done.
Qed.

Lemma forGroupVersionResource_not_found gvr obj sp w :
  storage (a w) !! gvr_GroupResource gvr = None ->
  storage (a (forGroupVersionResource gvr obj sp w))
  = <[gvr_GroupResource gvr := fresh (dom (heap w))]> (storage (a w))
  /\ heap (forGroupVersionResource gvr obj sp w)
     = <[fresh (dom (heap w)) := new_singletonProvider sp]> (heap w).
Proof.
  intros Hs. unfold forGroupVersionResource.
  destruct (withGroupVersions_frame [gvr_GroupVersion gvr] (a w)) as (_ & Hst & _).
  cbv zeta. rewrite Hst, Hs. done.
Qed.

Lemma forGroupVersionResource_frame gvr obj sp w :
  errs (a (forGroupVersionResource gvr obj sp w)) = errs (a w)
  /\ schemes (a (forGroupVersionResource gvr obj sp w)) = schemes (a w)
  /\ schemeBuilder (a (forGroupVersionResource gvr obj sp w)) = schemeBuilder (a w)
  /\ invocations (forGroupVersionResource gvr obj sp w) = invocations w.
Proof.
  unfold forGroupVersionResource.
  destruct (withGroupVersions_frame [gvr_GroupVersion gvr] (a w)) as (He & _ & Hs & Hb).
  by destruct (storage _ !! _).
Qed.

Lemma forGroupVersionResource_versions gvr obj sp w :
  orderedGroupVersions (a (forGroupVersionResource gvr obj sp w))
  = orderedGroupVersions (withGroupVersions [gvr_GroupVersion gvr] (a w))
  /\ groupVersions (a (forGroupVersionResource gvr obj sp w))
     = groupVersions (withGroupVersions [gvr_GroupVersion gvr] (a w)).
Proof. unfold forGroupVersionResource. by destruct (storage _ !! _). Qed.

Lemma forGroupVersionResource_keeps gr s sv gvr obj sp w :
  keeps gr s sv w -> keeps gr s sv (forGroupVersionResource gvr obj sp w).
Proof.
  intros [Hgr Hs]. unfold keeps.
  destruct (storage (a w) !! gvr_GroupResource gvr) as [s'|] eqn:Hf.
  - destruct (forGroupVersionResource_found gvr obj sp w s' Hf) as [-> ->]. done.
  - destruct (forGroupVersionResource_not_found gvr obj sp w Hf) as [-> ->].
    split.
    + rewrite lookup_insert_ne; [done|]. intros <-. congruence.
    + rewrite lookup_insert_ne; [done|]. intros <-.
      apply (is_fresh (dom (heap w))). apply elem_of_dom. eauto.
Qed.

Lemma set_a_keeps gr s sv f w :
  storage (f (a w)) = storage (a w) ->
  keeps gr s sv w -> keeps gr s sv (set_a f w).
Proof. intros Hf [Hgr Hs]. unfold keeps. simpl. by rewrite Hf. Qed.

Lemma register_keeps gr s sv r w :
  keeps gr s sv w -> keeps gr s sv (register r w).
Proof.
  intros H.
  destruct r; simpl;
    unfold WithResource, WithResourceAndStrategy, WithResourceAndHandler,
      WithResourceAndStorage, WithSubResource, WithSubResourceAndStrategy,
      WithSubResourceAndHandler, WithAdditionalSchemeInstallers,
      WithAdditionalSchemesToBuild;
    repeat case_match;
    repeat first [ apply forGroupVersionResource_keeps
                 | apply set_a_keeps; [done|] ];
    done.
Qed.

(** ** Versions of one resource *)

(** C2. Two versions of one resource, registered with [WithResource] in a
    fresh process. The first version is bound in [apiserver.APIs] to the
    factory itself and the second to the [Get] of the [singletonProvider]
    that wraps the same factory. Retrieving the handler of each version
    therefore invokes the factory twice, whatever the factory does; with a
    factory that builds a new storage at every call the two versions get two
    different storages. *)
Theorem WithResource_two_versions_invoke_twice :
  let w := WithResource widgets_v2 (WithResource widgets_v1 init) in
  APIs w !! mkGVR "apps" "v1" "widgets" = Some (rest_New widgets_v1)
  /\ APIs w !! mkGVR "apps" "v2" "widgets" = Some (singletonProvider_Get 0)
  /\ heap w !! 0 = Some (new_singletonProvider (rest_New widgets_v1))
  /\ (forall behave args1 args2, exists w1 w2,
        retrieve behave 2 (mkGVR "apps" "v1" "widgets") args1 w
        = Some (behave [] (rest_New widgets_v1) args1, w1)
        /\ retrieve behave 2 (mkGVR "apps" "v2" "widgets") args2 w1
           = Some (behave [(rest_New widgets_v1, args1)] (rest_New widgets_v1) args2, w2)
        /\ invocations w2
           = [(rest_New widgets_v1, args1); (rest_New widgets_v1, args2)])
  /\ (exists w1 w2,
        retrieve fresh_storage 2 (mkGVR "apps" "v1" "widgets") (0, 0) w
        = Some ((Some 0, None), w1)
        /\ retrieve fresh_storage 2 (mkGVR "apps" "v2" "widgets") (0, 0) w1
           = Some ((Some 1, None), w2)).
Proof.
  intros w. repeat split.
  - intros behave args1 args2. eexists _, _. repeat split.
  - eexists _, _. repeat split.
Qed.

(** C8. The second version of a resource with a status sub-resource,
    registered with [WithResource]: the first version got its
    [widgets/status] key, the second version, which reuses the storage of the
    first, returns before the status sub-resource is looked at and gets none,
    although its group-version is recorded. *)
Theorem WithResource_reuse_skips_status :
  let w := WithResource widgets_v2 (WithResource widgets_v1 init) in
  isObjectWithStatusSubResource widgets_v2 = true
  /\ APIs w !! mkGVR "apps" "v1" "widgets/status" = Some (rest_NewStatus widgets_v1)
  /\ storage (a w) !! mkGR "apps" "widgets/status" = Some 1
  /\ APIs w !! mkGVR "apps" "v2" "widgets" = Some (singletonProvider_Get 0)
  /\ APIs w !! mkGVR "apps" "v2" "widgets/status" = None
  /\ orderedGroupVersions (a w) = [mkGV "apps" "v1"; mkGV "apps" "v2"].
Proof. intros w. repeat split. Qed.

(** ** Registering a key again *)

Section Reregistration.

Variable behave :
  list (ResourceHandlerProvider * Args) -> ResourceHandlerProvider -> Args -> Result.

(** Retrieval through a key bound to the [Get] of a fresh provider. *)
Lemma retrieve_singleton fuel gvr args w s sv :
  APIs w !! gvr = Some (singletonProvider_Get s) ->
  heap w !! s = Some sv -> Once_done sv = false ->
  is_opaque (Provider sv) = true ->
  exists w',
    retrieve behave (S (S fuel)) gvr args w
    = Some (behave (invocations w) (Provider sv) args, w')
    /\ invocations w' = invocations w ++ [(Provider sv, args)].
Proof.
  intros Hb Hs Hd Ho. unfold retrieve. rewrite Hb. simpl.
  eexists. split; [|shelve].
  eapply (Get_first behave (S fuel)); [done..|]. by apply call_opaque.
  Unshelve. done.
Qed.

(** Retrieval through a key bound to a factory. *)
Lemma retrieve_opaque fuel gvr args w sp :
  APIs w !! gvr = Some sp -> is_opaque sp = true ->
  retrieve behave (S fuel) gvr args w
  = Some (behave (invocations w) sp args, record_invocation sp args w).
Proof. intros Hb Ho. unfold retrieve. rewrite Hb. by apply call_opaque. Qed.

End Reregistration.

Lemma WithResource_found obj w s :
  storage (a w) !! gvr_GroupResource (GetGroupVersionResource obj) = Some s ->
  WithResource obj w
  = forGroupVersionResource (GetGroupVersionResource obj) obj (singletonProvider_Get s)
      (set_a (schemeBuilder_Register [resource_AddToScheme obj]) w).
Proof. intros Hs. unfold WithResource. simpl. by rewrite Hs. Qed.

Lemma WithSubResource_found parent path request w s :
  storage (a w) !! gvr_GroupResource (subresource_gvr parent path) = Some s ->
  WithSubResource parent path request w
  = forGroupVersionResource (subresource_gvr parent path) request
      (singletonProvider_Get s) w.
Proof. intros Hs. unfold WithSubResource. by rewrite Hs. Qed.

(** A [GroupResource] that is registered keeps its provider through every
    later registration call; [forGroupVersionResource] binds the key it is
    given and no other; and what retrieval invokes after [WithResource],
    [WithSubResource] and [WithResourceAndHandler]. *)
Lemma reregistration_reuse
    (behave : list (ResourceHandlerProvider * Args) -> ResourceHandlerProvider -> Args -> Result)
    (gr : GroupResource) (s : addr) (sv : singletonProvider) (w : World) :
  storage (a w) !! gr = Some s ->
  heap w !! s = Some sv ->
  (forall r, storage (a (register r w)) !! gr = Some s
             /\ heap (register r w) !! s = Some sv)
  /\ (forall gvr obj sp,
        APIs (forGroupVersionResource gvr obj sp w) !! gvr = Some sp
        /\ forall gvr', gvr' <> gvr ->
             APIs (forGroupVersionResource gvr obj sp w) !! gvr' = APIs w !! gvr')
  /\ (forall obj args fuel,
        gvr_GroupResource (GetGroupVersionResource obj) = gr ->
        Once_done sv = false -> is_opaque (Provider sv) = true ->
        exists w',
          retrieve behave (S (S fuel)) (GetGroupVersionResource obj) args
            (WithResource obj w)
          = Some (behave (invocations w) (Provider sv) args, w')
          /\ invocations w' = invocations w ++ [(Provider sv, args)])
  /\ (forall parent path request args fuel,
        gvr_GroupResource (subresource_gvr parent path) = gr ->
        Once_done sv = false -> is_opaque (Provider sv) = true ->
        exists w',
          retrieve behave (S (S fuel)) (subresource_gvr parent path) args
            (WithSubResource parent path request w)
          = Some (behave (invocations w) (Provider sv) args, w')
          /\ invocations w' = invocations w ++ [(Provider sv, args)])
  /\ (forall obj sp args fuel,
        gvr_GroupResource (GetGroupVersionResource obj) = gr ->
        is_opaque sp = true ->
        exists w',
          retrieve behave (S fuel) (GetGroupVersionResource obj) args
            (WithResourceAndHandler obj sp w)
          = Some (behave (invocations w) sp args, w')
          /\ invocations w' = invocations w ++ [(sp, args)]).
Proof.
  intros Hgr Hs.
  assert (Hk : keeps gr s sv w) by done.
  split; [|split; [|split; [|split]]].
  - intros r. by apply register_keeps.
  - intros gvr obj sp. rewrite forGroupVersionResource_APIs. split.
    + apply lookup_insert_eq.
    + intros gvr' Hne. by rewrite lookup_insert_ne.
  - intros obj args fuel <- Hd Ho.
    pose proof (register_keeps _ _ _ (RWithResource obj) _ Hk) as [_ Hh].
    simpl in Hh. rewrite (WithResource_found obj w s Hgr) in *.
    destruct (retrieve_singleton behave fuel (GetGroupVersionResource obj) args
                (forGroupVersionResource (GetGroupVersionResource obj) obj
                   (singletonProvider_Get s)
                   (set_a (schemeBuilder_Register [resource_AddToScheme obj]) w))
                s sv) as (w' & Hr & Hi); [|done..|].
    { rewrite forGroupVersionResource_APIs. apply lookup_insert_eq. }
    destruct (forGroupVersionResource_frame (GetGroupVersionResource obj) obj
                (singletonProvider_Get s)
                (set_a (schemeBuilder_Register [resource_AddToScheme obj]) w))
      as (_ & _ & _ & Hinv).
    rewrite Hinv in Hr, Hi. simpl in Hr, Hi. eauto.
  - intros parent path request args fuel <- Hd Ho.
    pose proof (register_keeps _ _ _ (RWithSubResource parent path request) _ Hk)
      as [_ Hh].
    simpl in Hh. rewrite (WithSubResource_found parent path request w s Hgr) in *.
    destruct (retrieve_singleton behave fuel (subresource_gvr parent path) args
                (forGroupVersionResource (subresource_gvr parent path) request
                   (singletonProvider_Get s) w)
                s sv) as (w' & Hr & Hi); [|done..|].
    { rewrite forGroupVersionResource_APIs. apply lookup_insert_eq. }
    destruct (forGroupVersionResource_frame (subresource_gvr parent path) request
                (singletonProvider_Get s) w) as (_ & _ & _ & Hinv).
    rewrite Hinv in Hr, Hi. eauto.
  - intros obj sp args fuel _ Ho.
    assert (Hinv : invocations (WithResourceAndHandler obj sp w) = invocations w).
    { unfold WithResourceAndHandler.
      by destruct (forGroupVersionResource_frame (GetGroupVersionResource obj) obj sp
                     (set_a (schemeBuilder_Register [resource_AddToScheme obj]) w))
        as (_ & _ & _ & ->). }
    rewrite (retrieve_opaque behave fuel _ args _ sp); [|..|done].
    + rewrite Hinv. eexists. split; [done|]. simpl. by rewrite Hinv.
    + unfold WithResourceAndHandler.
      rewrite forGroupVersionResource_APIs. apply lookup_insert_eq.
Qed.

(** C3, as stated, fails: a second version registered with
    [WithResourceAndHandler] and a second factory leaves the stored provider
    alone, and yet the handler of that version is retrieved from the second
    factory. *)
Lemma second_factory_is_invoked :
  let w1 := WithResourceAndHandler widgets_v1 (Func 1) init in
  let w2 := WithResourceAndHandler widgets_v2 (Func 2) w1 in
  storage (a w1) !! mkGR "apps" "widgets" = Some 0
  /\ storage (a w2) !! mkGR "apps" "widgets" = Some 0
  /\ heap w1 !! 0 = Some (new_singletonProvider (Func 1))
  /\ heap w2 !! 0 = Some (new_singletonProvider (Func 1))
  /\ exists r w3,
       retrieve fresh_storage 2 (mkGVR "apps" "v2" "widgets") (0, 0) w2 = Some (r, w3)
       /\ invocations w3 = [(Func 2, (0, 0))]
       /\ ~ (forall sp args, (sp, args) ∈ invocations w3 -> sp = Func 1).
Proof.
  intros w1 w2. repeat split.
  eexists _, _. split; [reflexivity|]. split; [reflexivity|].
  intros H. specialize (H (Func 2) (0, 0)). simpl in H.
  discriminate H. apply list_elem_of_here.
Qed.

(** ** The error path of WithSubResource *)

(** C10. When no provider exists for the key of the sub-resource,
    [WithSubResource] appends its error to [a.errs] and changes nothing else:
    the storage map, the bindings of [apiserver.APIs], the group-versions and
    their order, the heap of providers, the schemes and the scheme builder are
    as before; the builder goes on to the next call of the chain. *)
Theorem WithSubResource_error_frame
    (parent : Object) (subResourcePath : string) (request : Object) (w : World) :
  storage (a w) !! gvr_GroupResource (subresource_gvr parent subResourcePath) = None ->
  let w' := WithSubResource parent subResourcePath request w in
  errs (a w') = errs (a w) ++ [subresource_error]
  /\ storage (a w') = storage (a w)
  /\ APIs w' = APIs w
  /\ groupVersions (a w') = groupVersions (a w)
  /\ orderedGroupVersions (a w') = orderedGroupVersions (a w)
  /\ heap w' = heap w
  /\ schemes (a w') = schemes (a w)
  /\ schemeBuilder (a w') = schemeBuilder (a w)
  /\ schemeOps w' = schemeOps w
  /\ invocations w' = invocations w
  /\ forall rs,
       chain (RWithSubResource parent subResourcePath request :: rs) w = chain rs w'.
Proof.
  intros Hs w'. subst w'. unfold WithSubResource. rewrite Hs. simpl.
  unfold WithSubResource. rewrite Hs. done.
Qed.

Lemma WithSubResource_error_frame_witness :
  let w := WithResource widgets_v1 init in
  let w' := WithSubResource widgets_v1 "scale" widgets_v1 w in
  errs (a w') = [subresource_error]
  /\ storage (a w') = storage (a w)
  /\ APIs w' = APIs w.
Proof.
  intros w w'.
  destruct (WithSubResource_error_frame widgets_v1 "scale" widgets_v1 w eq_refl)
    as (H1 & H2 & H3 & _).
  exact (conj H1 (conj H2 H3)).
Defined.

(** ** The observed group-versions *)

Lemma withGroupVersions_elem_of gv s :
  (forall gv', gv' ∈ orderedGroupVersions s
               <-> gv' ∈ groupVersions_keys (groupVersions s)) ->
  forall gv',
    gv' ∈ orderedGroupVersions (withGroupVersions [gv] s)
    <-> gv' = gv \/ gv' ∈ orderedGroupVersions s.
Proof.
  intros Hk gv'.
  destruct (withGroupVersions_single gv s) as [Hin Hout].
  destruct (decide (gv ∈ groupVersions_keys (groupVersions s))) as [Hd|Hd].
  - destruct (Hin Hd) as [-> _]. split; [by right|].
    intros [->|?]; [by apply Hk|done].
  - destruct (Hout Hd) as [-> _]. rewrite elem_of_app, list_elem_of_singleton.
    tauto.
Qed.

Lemma withGroupVersions_prefix gv s :
  orderedGroupVersions s `prefix_of` orderedGroupVersions (withGroupVersions [gv] s).
Proof.
  destruct (withGroupVersions_single gv s) as [Hin Hout].
  destruct (decide (gv ∈ groupVersions_keys (groupVersions s))) as [Hd|Hd].
  - by destruct (Hin Hd) as [-> _].
  - destruct (Hout Hd) as [-> _]. by apply prefix_app_r.
Qed.

Lemma gv_WithResource_gvr gvr :
  gv_WithResource (gvr_GroupVersion gvr) (Resource gvr) = gvr.
Proof. by destruct gvr. Qed.

Lemma forGroupVersionResource_inv gvr obj sp w :
  builder_inv w -> builder_inv (forGroupVersionResource gvr obj sp w).
Proof.
  intros [Hnd Hk Ha Hst].
  destruct (forGroupVersionResource_versions gvr obj sp w) as [Ho Hg].
  destruct (withGroupVersions_single (gvr_GroupVersion gvr) (a w)) as [Hin Hout].
  pose proof (withGroupVersions_elem_of (gvr_GroupVersion gvr) (a w) Hk) as Hel.
  split.
  - rewrite Ho.
    destruct (decide (gvr_GroupVersion gvr ∈ groupVersions_keys (groupVersions (a w))))
      as [Hd|Hd].
    + by destruct (Hin Hd) as [-> _].
    + destruct (Hout Hd) as [-> _]. apply NoDup_app. split; [done|].
      split; [|apply NoDup_singleton].
      intros x Hx ->%list_elem_of_singleton. by apply Hd, Hk.
  - intros gv. rewrite Ho, Hg, Hel.
    destruct (decide (gvr_GroupVersion gvr ∈ groupVersions_keys (groupVersions (a w))))
      as [Hd|Hd].
    + destruct (Hin Hd) as [_ ->]. rewrite Hk. split; [|tauto].
      intros [->|?]; done.
    + destruct (Hout Hd) as [_ ->]. by rewrite Hk, elem_of_union, elem_of_singleton.
  - intros gv. rewrite Ho, Hel, forGroupVersionResource_APIs, Ha. split.
    + intros [->|[r Hr]].
      * exists (Resource gvr). rewrite gv_WithResource_gvr, lookup_insert_eq. eauto.
      * exists r. apply lookup_insert_is_Some'. by right.
    + intros [r Hr]. apply lookup_insert_is_Some' in Hr as [Hr|Hr].
      * left. subst gvr. by destruct gv.
      * right. eauto.
  - intros gr s.
    destruct (storage (a w) !! gvr_GroupResource gvr) as [s'|] eqn:Hf.
    + destruct (forGroupVersionResource_found gvr obj sp w s' Hf) as [-> ->].
      apply Hst.
    + destruct (forGroupVersionResource_not_found gvr obj sp w Hf) as [-> ->].
      intros Hl. apply lookup_insert_is_Some'.
      apply lookup_insert_Some in Hl as [[_ <-]|[_ Hl]]; [by left|].
      right. by eapply Hst.
Qed.

Lemma forGroupVersionResource_prefix gvr obj sp w :
  orderedGroupVersions (a w)
    `prefix_of` orderedGroupVersions (a (forGroupVersionResource gvr obj sp w)).
Proof.
  destruct (forGroupVersionResource_versions gvr obj sp w) as [-> _].
  apply withGroupVersions_prefix.
Qed.

Lemma set_a_inv f w :
  storage (f (a w)) = storage (a w) ->
  groupVersions (f (a w)) = groupVersions (a w) ->
  orderedGroupVersions (f (a w)) = orderedGroupVersions (a w) ->
  builder_inv w -> builder_inv (set_a f w).
Proof.
  intros H1 H2 H3 [Hnd Hk Ha Hst].
  split; simpl; rewrite ?H1, ?H2, ?H3; done.
Qed.

Lemma set_a_prefix f w w' :
  orderedGroupVersions (f (a w)) = orderedGroupVersions (a w) ->
  orderedGroupVersions (a (set_a f w)) `prefix_of` orderedGroupVersions (a w') ->
  orderedGroupVersions (a w) `prefix_of` orderedGroupVersions (a w').
Proof. intros H. simpl. by rewrite H. Qed.

Ltac unfold_registration :=
  unfold register, WithResource, WithResourceAndStrategy, WithResourceAndHandler,
    WithResourceAndStorage, WithSubResource, WithSubResourceAndStrategy,
    WithSubResourceAndHandler, WithAdditionalSchemeInstallers,
    WithAdditionalSchemesToBuild.

Lemma register_inv r w : builder_inv w -> builder_inv (register r w).
Proof.
  intros H. destruct r; unfold_registration; repeat case_match;
    repeat first [ apply forGroupVersionResource_inv
                 | apply set_a_inv; [done..|] ];
    done.
Qed.

Lemma register_prefix r w :
  orderedGroupVersions (a w) `prefix_of` orderedGroupVersions (a (register r w)).
Proof.
  destruct r; unfold_registration; repeat case_match;
    repeat first [ done
                 | etrans; [|apply forGroupVersionResource_prefix] ].
Qed.

Lemma init_inv : builder_inv init.
Proof.
  split; simpl.
  - constructor.
  - intros gv. set_solver.
  - intros gv. split; [by intros ?%elem_of_nil|].
    intros [r Hr]. rewrite lookup_empty in Hr. by destruct Hr.
  - intros gr s. by rewrite lookup_empty.
Qed.

Lemma chain_inv rs w : builder_inv w -> builder_inv (chain rs w).
Proof.
  revert w. induction rs as [|r rs IH]; intros w Hw; [done|].
  simpl. apply IH. by apply register_inv.
Qed.

Lemma chain_snoc rs r w : chain (rs ++ [r]) w = register r (chain rs w).
Proof. unfold chain. by rewrite foldl_app. Qed.

(** The invariant of the states the builder reaches from a fresh process,
    and what [forGroupVersionResource] records. *)
Lemma orderedGroupVersions_reachable (rs : list Registration) :
  let w := chain rs init in
  NoDup (orderedGroupVersions (a w))
  /\ (forall gv, gv ∈ orderedGroupVersions (a w)
                 <-> gv ∈ groupVersions_keys (groupVersions (a w)))
  /\ (forall gvr, is_Some (APIs w !! gvr) ->
                  gvr_GroupVersion gvr ∈ orderedGroupVersions (a w))
  /\ (forall gvr obj sp,
        let w' := forGroupVersionResource gvr obj sp w in
        APIs w' !! gvr = Some sp
        /\ gvr_GroupVersion gvr ∈ orderedGroupVersions (a w')
        /\ gvr_GroupVersion gvr ∈ groupVersions_keys (groupVersions (a w')))
  /\ (forall r,
        orderedGroupVersions (a w)
          `prefix_of` orderedGroupVersions (a (chain (rs ++ [r]) init))).
Proof.
  intros w. pose proof (chain_inv rs init init_inv) as Hw. fold w in Hw.
  split; [apply Hw|]. split; [apply Hw|]. split; [|split].
  - intros gvr Hb. apply (inv_APIs w Hw). exists (Resource gvr).
    by rewrite gv_WithResource_gvr.
  - intros gvr obj sp w'.
    pose proof (forGroupVersionResource_inv gvr obj sp w Hw) as Hw'. fold w' in Hw'.
    assert (Hb : APIs w' !! gvr = Some sp).
    { subst w'. rewrite forGroupVersionResource_APIs. apply lookup_insert_eq. }
    assert (Hin : gvr_GroupVersion gvr ∈ orderedGroupVersions (a w')).
    { apply (inv_APIs w' Hw'). exists (Resource gvr).
      rewrite gv_WithResource_gvr, Hb. eauto. }
    split; [done|]. split; [done|]. by apply (inv_keys w' Hw').
  - intros r. rewrite chain_snoc. apply register_prefix.
Qed.

(** ** Version priorities *)

Lemma sets_String_List_Sorted (s : gset string) :
  StronglySorted String.le (sets_String_List s).
Proof. apply StronglySorted_merge_sort; apply _. Qed.

Lemma sets_String_List_elem_of (s : gset string) v :
  v ∈ sets_String_List s <-> v ∈ s.
Proof.
  unfold sets_String_List. by rewrite merge_sort_Permutation, elem_of_elements.
Qed.

Lemma sets_String_List_NoDup (s : gset string) : NoDup (sets_String_List s).
Proof.
  unfold sets_String_List. rewrite merge_sort_Permutation. apply NoDup_elements.
Qed.

(** The versions collected for a group are those of the keys of that group. *)
Lemma collectGroupVersions_spec
    (apis : gmap GroupVersionResource ResourceHandlerProvider) (g : string) :
  match collectGroupVersions apis !! g with
  | Some versions =>
      (exists v, v ∈ versions)
      /\ forall v, v ∈ versions <-> exists r, is_Some (apis !! mkGVR g v r)
  | None => forall v r, apis !! mkGVR g v r = None
  end.
Proof.
  revert g. unfold collectGroupVersions.
  apply (map_fold_weak_ind
           (fun (m : gmap string (gset string))
                (apis : gmap GroupVersionResource ResourceHandlerProvider) =>
              forall g,
                match m !! g with
                | Some versions =>
                    (exists v, v ∈ versions)
                    /\ forall v, v ∈ versions
                                 <-> exists r, is_Some (apis !! mkGVR g v r)
                | None => forall v r, apis !! mkGVR g v r = None
                end)).
  - intros g. rewrite lookup_empty. intros v r. apply lookup_empty.
  - intros gvr sp m acc Hfresh IH g. unfold insertGroupVersion.
    specialize (IH g).
    destruct (decide (Group gvr = g)) as [<-|Hne].
    + rewrite lookup_insert_eq. split.
      * exists (Version gvr). apply elem_of_union_l, elem_of_singleton. done.
      * intros v. rewrite elem_of_union, elem_of_singleton. split.
        -- intros [->|Hv].
           ++ exists (Resource gvr). destruct gvr. simpl.
              rewrite lookup_insert_eq. eauto.
           ++ destruct (acc !! Group gvr) as [versions|]; simpl in Hv.
              ** destruct IH as [_ IH]. apply IH in Hv as [r Hr]. exists r.
                 apply lookup_insert_is_Some'. by right.
              ** by apply not_elem_of_empty in Hv.
        -- intros [r Hr]. apply lookup_insert_is_Some' in Hr as [Hr|Hr].
           ++ left. apply (f_equal Version) in Hr. by simpl in Hr.
           ++ right. destruct (acc !! Group gvr) as [versions|]; simpl.
              ** destruct IH as [_ IH]. apply IH. eauto.
              ** rewrite IH in Hr. by destruct Hr.
    + rewrite lookup_insert_ne by done.
      assert (Hk : forall v r, <[gvr := sp]> m !! mkGVR g v r = m !! mkGVR g v r).
      { intros v r. apply lookup_insert_ne. intros ->. by apply Hne. }
      destruct (acc !! g) as [versions|].
      * destruct IH as [Hex IH]. split; [done|]. intros v. rewrite IH.
        by setoid_rewrite Hk.
      * intros v r. by rewrite Hk.
Qed.



(** ** The text of the aggregate error *)

Lemma append_cons c (s t : string) : String c s +:+ t = String c (s +:+ t).
Proof. reflexivity. Qed.

Lemma append_nil_r (s : string) : s +:+ "" = s.
Proof. induction s as [|c s IH]; [done|]. by rewrite append_cons, IH. Qed.

Lemma append_assoc (s t u : string) : (s +:+ t) +:+ u = s +:+ t +:+ u.
Proof. induction s as [|c s IH]; [done|]. by rewrite !append_cons, IH. Qed.

Lemma strings_Join_cons h msgs sep :
  strings_Join (h :: msgs) sep = h +:+ separated sep msgs.
Proof.
  revert h. induction msgs as [|m msgs IH]; intros h.
  - simpl. by rewrite append_nil_r.
  - change (strings_Join (h :: m :: msgs) sep)
      with (h +:+ sep +:+ strings_Join (m :: msgs) sep).
    by rewrite IH.
Qed.

Lemma append_messages (msgs : list string) (l : list error) :
  foldl (fun msgs x => msgs ++ [Error x]) msgs l = msgs ++ (Error <$> l).
Proof.
  revert msgs. induction l as [|e l IH]; intros msgs; simpl.
  - by rewrite app_nil_r.
  - rewrite IH. by rewrite <- app_assoc.
Qed.

Lemma errs_Error_Join (l : list error) :
  errs_Error (mk_errs l)
  = strings_Join ((Sprintf_d (length l) +:+ " errors: ") :: (Error <$> l))
      (String newline "").
Proof. unfold errs_Error. simpl. by rewrite append_messages. Qed.

Lemma has_newline_append s t :
  has_newline (s +:+ t) = has_newline s || has_newline t.
Proof.
  induction s as [|c s IH]; [done|].
  rewrite append_cons. simpl. by rewrite IH, orb_assoc.
Qed.

Lemma has_newline_Sprintf_d n : has_newline (Sprintf_d n) = false.
Proof.
  unfold Sprintf_d. generalize (Nat.to_uint n). intros d.
  induction d; simpl; done.
Qed.

Lemma lines_single s : has_newline s = false -> lines s = [s].
Proof.
  induction s as [|c s IH]; simpl; [done|].
  intros [Hc Hs]%orb_false_elim. apply bool_decide_eq_false in Hc.
  rewrite decide_False by done. by rewrite IH.
Qed.

Lemma lines_append_newline s t :
  has_newline s = false -> lines (s +:+ String newline t) = s :: lines t.
Proof.
  induction s as [|c s IH].
  - intros _. reflexivity.
  - rewrite append_cons. simpl.
    intros [Hc Hs]%orb_false_elim. apply bool_decide_eq_false in Hc.
    rewrite decide_False by done. by rewrite IH.
Qed.

Lemma lines_separated h msgs :
  has_newline h = false ->
  Forall (fun m => has_newline m = false) msgs ->
  lines (h +:+ separated (String newline "") msgs) = h :: msgs.
Proof.
  intros Hh Hmsgs. revert h Hh.
  induction Hmsgs as [|m msgs Hm Hmsgs IH]; intros h Hh; simpl.
  - rewrite append_nil_r. by apply lines_single.
  - change (String newline "" +:+ m +:+ separated (String newline "") msgs)
      with (String newline (m +:+ separated (String newline "") msgs)).
    rewrite lines_append_newline by done. f_equal. by apply IH.
Qed.

Lemma contains_separated h sep msgs m :
  m ∈ msgs -> contains (h +:+ separated sep msgs) m.
Proof.
  intros Hm. revert h. induction Hm as [m msgs|m m' msgs Hm IH]; intros h; simpl.
  - exists (h +:+ sep), (separated sep msgs). by rewrite append_assoc.
  - destruct (IH (h +:+ sep +:+ m')) as (pre & post & Heq).
    exists pre, post. rewrite <- Heq. by rewrite !append_assoc.
Qed.

(** C7. The text of the aggregate error is the count line
    [N errors: ], where [N] is the number of errors in decimal, followed by
    the messages of the errors in the order of the list, each behind a line
    break. The count line holds no line break, so it is the first line; when
    no message holds a line break either, the lines of the text are the count
    line and then one line for each error, in order. *)
Theorem errs_Error_lines (l : list error) :
  l <> [] ->
  let header := Sprintf_d (length l) +:+ " errors: " in
  errs_Error (mk_errs l) = header +:+ separated (String newline "") (Error <$> l)
  /\ has_newline header = false
  /\ (Forall (fun e => has_newline (Error e) = false) l ->
      lines (errs_Error (mk_errs l)) = header :: (Error <$> l)).
Proof.
  intros _ header.
  assert (Hh : has_newline header = false).
  { subst header. by rewrite has_newline_append, has_newline_Sprintf_d. }
  assert (Hj : errs_Error (mk_errs l)
               = header +:+ separated (String newline "") (Error <$> l)).
  { by rewrite errs_Error_Join, strings_Join_cons. }
  split; [done|]. split; [done|].
  intros Hl. rewrite Hj. apply lines_separated; [done|].
  by apply Forall_fmap.
Qed.

Lemma errs_Error_lines_witness :
  lines (errs_Error (mk_errs [subresource_error; Errorf "second"]))
  = ["2 errors: "; Error subresource_error; "second"].
Proof.
  destruct (errs_Error_lines [subresource_error; Errorf "second"]) as (_ & _ & H).
  - discriminate.
  - apply H. repeat constructor.
Defined.

(** ** Build *)

Lemma forGroupVersionResource_errs gvr obj sp w :
  errs (a (forGroupVersionResource gvr obj sp w)) = errs (a w).
Proof. by destruct (forGroupVersionResource_frame gvr obj sp w) as (-> & _). Qed.

Lemma register_errs r w : errs (a w) `prefix_of` errs (a (register r w)).
Proof.
  destruct r; unfold_registration; repeat case_match;
    rewrite ?forGroupVersionResource_errs; simpl; try done.
  by apply prefix_app_r.
Qed.

Lemma chain_errs rs w : errs (a w) `prefix_of` errs (a (chain rs w)).
Proof.
  revert w. induction rs as [|r rs IH]; intros w; [done|].
  simpl. etrans; [apply register_errs|apply IH].
Qed.

Section BuildFacts.

Variable fails : list SchemeOp -> SchemeOp -> option error.

(** Installers work on schemes: the builder is as it was. *)
Lemma setVersionPriorities_a scheme groups w :
  a (setVersionPriorities fails scheme groups w).2 = a w.
Proof.
  revert w. induction groups as [|[g versions] groups IH]; intros w; [done|].
  simpl. destruct (fails _ _); [done|]. by rewrite IH.
Qed.

Lemma log_ops_a scheme gvs w :
  a (foldl (fun w gv => log_op (AddToGroupVersion scheme gv) w) w gvs) = a w.
Proof. revert w. induction gvs as [|gv gvs IH]; intros w; [done|]. simpl. by rewrite IH. Qed.

Lemma run_installer_a fn scheme w : a (run_installer fails fn scheme w).2 = a w.
Proof.
  destruct fn; try done. simpl. unfold run_versionPriorityInstaller.
  pose proof (setVersionPriorities_a scheme
                (map_to_list (collectGroupVersions (APIs w))) w) as H.
  destruct (setVersionPriorities _ _ _ _) as [[err|] w']; simpl in *; [done|].
  by rewrite log_ops_a.
Qed.

Lemma AddToScheme_a fns scheme w : a (AddToScheme fails fns scheme w).2 = a w.
Proof.
  revert w. induction fns as [|fn fns IH]; intros w; [done|]. simpl.
  pose proof (run_installer_a fn scheme w) as H.
  destruct (run_installer _ _ _ _) as [[err|] w']; simpl in *; [done|].
  by rewrite IH.
Qed.

Lemma AddToSchemes_a ss w : a (AddToSchemes fails ss w).2 = a w.
Proof.
  revert w. induction ss as [|scheme ss IH]; intros w; [done|]. simpl.
  pose proof (AddToScheme_a (schemeBuilder (a w)) scheme w) as H.
  destruct (AddToScheme _ _ _ _) as [[err|] w']; simpl in *; [done|].
  by rewrite IH.
Qed.

(** When every call goes through, the calls of [SetVersionPriority] are one
    for each group, with the versions of the group in order. *)
Lemma setVersionPriorities_ops scheme groups w w' :
  setVersionPriorities fails scheme groups w = (None, w') ->
  schemeOps w'
  = schemeOps w
    ++ ((fun gvs => SetVersionPriority scheme (priorityArgs gvs.1 gvs.2)) <$> groups).
Proof.
  revert w. induction groups as [|[g versions] groups IH]; intros w; simpl.
  - intros [= <-]. by rewrite app_nil_r.
  - destruct (fails _ _); [done|]. intros H. rewrite (IH _ H). simpl.
    by rewrite <- app_assoc.
Qed.

(** The loops stop at the first error. *)
Lemma AddToScheme_app fns1 fns2 scheme w w1 :
  AddToScheme fails fns1 scheme w = (None, w1) ->
  AddToScheme fails (fns1 ++ fns2) scheme w = AddToScheme fails fns2 scheme w1.
Proof.
  revert w. induction fns1 as [|fn fns1 IH]; intros w; simpl.
  - by intros [= ->].
  - destruct (run_installer _ _ _ _) as [[err|] w']; [done|]. apply IH.
Qed.

Lemma AddToSchemes_app ss1 ss2 w w1 :
  AddToSchemes fails ss1 w = (None, w1) ->
  AddToSchemes fails (ss1 ++ ss2) w = AddToSchemes fails ss2 w1.
Proof.
  revert w. induction ss1 as [|scheme ss1 IH]; intros w; simpl.
  - by intros [= ->].
  - destruct (AddToScheme _ _ _ _) as [[err|] w']; [done|]. apply IH.
Qed.

(** When no installer fails, [Build] returns, and what it returns is
    decided by [a.errs]. *)
Lemma Build_returns w :
  (forall err, (Build fails w).1 <> Panic err) ->
  (Build fails w).1
  = if negb (length (errs (a w)) =? 0)
    then Return None (Some (mk_errs (errs (a w))))
    else Return (Some (NewCommandStartServer (orderedGroupVersions (a w)))) None.
Proof.
  unfold Build. intros Hp.
  pose proof (AddToSchemes_a (schemes (a (Build_register w))) (Build_register w)) as Ha.
  destruct (AddToSchemes _ _ _) as [[err|] w']; simpl in *.
  - by destruct (Hp err).
  - rewrite Ha. simpl. by destruct (negb (length (errs (a w)) =? 0)).
Qed.

End BuildFacts.

(** C5, as the code has it. [WithSubResource] for a key that has no provider
    appends its error to [a.errs] and the chain goes on. Unless an installer
    fails, in which case it panics, a later [Build] returns no command and the
    aggregate error: this one holds the error of the sub-resource, its text
    starts with the number of errors, which is at least 1, and contains the
    text of that error. *)
Theorem WithSubResource_error_fails_Build
    (fails : list SchemeOp -> SchemeOp -> option error)
    (parent : Object) (subResourcePath : string) (request : Object)
    (rs : list Registration) (w : World) :
  storage (a w) !! gvr_GroupResource (subresource_gvr parent subResourcePath) = None ->
  let w1 := WithSubResource parent subResourcePath request w in
  let w2 := chain rs w1 in
  (forall err, (Build fails w2).1 <> Panic err) ->
  errs (a w1) = errs (a w) ++ [subresource_error]
  /\ exists e,
       (Build fails w2).1 = Return None (Some e)
       /\ subresource_error ∈ errs_list e
       /\ 1 <= length (errs_list e)
       /\ (exists rest,
             errs_Error e
             = Sprintf_d (length (errs_list e)) +:+ " errors: " +:+ rest)
       /\ contains (errs_Error e) (Error subresource_error).
Proof.
  intros Hs w1 w2 Hp.
  assert (H1 : errs (a w1) = errs (a w) ++ [subresource_error]).
  { subst w1. unfold WithSubResource. by rewrite Hs. }
  split; [done|].
  assert (Hin : subresource_error ∈ errs (a w2)).
  { destruct (chain_errs rs w1) as [k Hk]. fold w2 in Hk.
    rewrite Hk, H1, !elem_of_app, list_elem_of_singleton. auto. }
  assert (Hlen : 1 <= length (errs (a w2))).
  { destruct (errs (a w2)); [by apply elem_of_nil in Hin|simpl; lia]. }
  exists (mk_errs (errs (a w2))). rewrite (Build_returns fails w2 Hp).
  split.
  { destruct (length (errs (a w2))); [lia|done]. }
  simpl. split; [done|]. split; [done|].
  rewrite errs_Error_Join, strings_Join_cons, append_assoc. split; [eauto|].
  rewrite <- append_assoc. apply contains_separated.
  apply list_elem_of_fmap. exists subresource_error. by split.
Qed.

Lemma WithSubResource_error_fails_Build_witness :
  let w := WithSubResource widgets_v1 "scale" widgets_v1 (WithResource widgets_v1 init) in
  exists e,
    (Build no_failure (chain [RWithResource widgets_v2] w)).1 = Return None (Some e)
    /\ contains (errs_Error e) (Error subresource_error).
Proof.
  intros w.
  destruct (WithSubResource_error_fails_Build no_failure widgets_v1 "scale" widgets_v1
              [RWithResource widgets_v2] (WithResource widgets_v1 init))
    as (_ & e & H1 & _ & _ & _ & H2).
  - reflexivity.
  - intros err. vm_compute. discriminate.
  - exists e. split; [exact H1|exact H2].
Defined.

(** C5, as stated, fails: with an installer that fails, [Build] after the
    error of [WithSubResource] does not return the aggregate error, it
    panics with the error of the installer. *)
Lemma Build_panics_before_errs :
  let w := WithSubResource widgets_v1 "scale" widgets_v1
             (WithAdditionalSchemeInstallers [7] init) in
  storage (a (WithAdditionalSchemeInstallers [7] init))
    !! gvr_GroupResource (subresource_gvr widgets_v1 "scale") = None
  /\ errs (a w) = [subresource_error]
  /\ (Build (installer_fails 7 (Errorf "boom")) w).1 = Panic (Errorf "boom")
  /\ ~ (exists e, (Build (installer_fails 7 (Errorf "boom")) w).1
                  = Return None (Some e)).
Proof.
  intros w. repeat split. intros [e He]. vm_compute in He. discriminate He.
Qed.

(** C6, as the code has it. When an installer fails on one of the schemes,
    the installers before it and the schemes before that one having gone
    through, [Build] stops there and panics with the error of that installer:
    it returns nothing, the error is not put with those of [a.errs], and the
    installers and schemes that come after are not run. *)
Theorem Build_panics_on_installer_error
    (fails : list SchemeOp -> SchemeOp -> option error)
    (w : World) (ss1 ss2 : list addr) (scheme : addr)
    (fns1 fns2 : list Installer) (fn : Installer)
    (w1 w2 w3 : World) (err : error) :
  schemes (a w) ++ [apiserver_Scheme] = ss1 ++ scheme :: ss2 ->
  schemeBuilder (a w) ++ [versionPriorityInstaller] = fns1 ++ fn :: fns2 ->
  AddToSchemes fails ss1 (Build_register w) = (None, w1) ->
  AddToScheme fails fns1 scheme w1 = (None, w2) ->
  run_installer fails fn scheme w2 = (Some err, w3) ->
  Build fails w = (Panic err, w3).
Proof.
  intros Hss Hfns H1 H2 H3.
  assert (Hb : schemeBuilder (a w1) = fns1 ++ fn :: fns2).
  { pose proof (AddToSchemes_a fails ss1 (Build_register w)) as Ha.
    rewrite H1 in Ha. simpl in Ha. rewrite Ha. exact Hfns. }
  unfold Build.
  change (schemes (a (Build_register w))) with (schemes (a w) ++ [apiserver_Scheme]).
  rewrite Hss, (AddToSchemes_app fails ss1 _ _ w1 H1). simpl.
  rewrite Hb, (AddToScheme_app fails fns1 _ _ _ w2 H2). simpl.
  by rewrite H3.
Qed.

Lemma Build_panics_on_installer_error_witness :
  let w := WithSubResource widgets_v1 "scale" widgets_v1
             (WithAdditionalSchemeInstallers [7; 8] init) in
  exists w3, Build (installer_fails 7 (Errorf "boom")) w = (Panic (Errorf "boom"), w3)
             /\ schemeOps w3 = [Install apiserver_Scheme (InstallerFunc 7)].
Proof.
  intros w. eexists. split.
  - apply (Build_panics_on_installer_error (installer_fails 7 (Errorf "boom")) w
             [] [] apiserver_Scheme
             [] [InstallerFunc 8; versionPriorityInstaller] (InstallerFunc 7)
             (Build_register w) (Build_register w)); reflexivity.
  - reflexivity.
Defined.

(** C6, as stated, fails: [Build] does not return the error of the installer
    to its caller, it panics with it. *)
Lemma Build_does_not_return_installer_error :
  let w := WithAdditionalSchemeInstallers [7] init in
  (Build (installer_fails 7 (Errorf "boom")) w).1 = Panic (Errorf "boom")
  /\ forall cmd err,
       (Build (installer_fails 7 (Errorf "boom")) w).1 <> Return cmd err.
Proof. intros w. split; [reflexivity|]. intros cmd err. vm_compute. discriminate. Qed.

(** * Further properties of the builder *)

(** ** Keys of sub-resources *)

Lemma length_append (s t : string) :
  String.length (s +:+ t) = String.length s + String.length t.
Proof. induction s as [|c s IH]; [done|]. rewrite append_cons. simpl. by rewrite IH. Qed.

Lemma append_neq (s t : string) : t <> "" -> s +:+ t <> s.
Proof.
  intros Ht Heq. apply (f_equal String.length) in Heq.
  rewrite length_append in Heq. destruct t; [done|]. simpl in Heq. lia.
Qed.

(** X1. The key of a sub-resource keeps the group and the version of its
    parent and never is the key of the parent, nor its group-resource; two
    paths under one parent give one key only if they are the same path; and
    the key that [WithResource] derives for the status sub-resource is the
    key of the sub-resource path [status]. *)
Theorem subresource_gvr_keys (parent : Object) (path : string) :
  status_gvr (GetGroupVersionResource parent) = subresource_gvr parent "status"
  /\ gvr_GroupVersion (subresource_gvr parent path)
     = gvr_GroupVersion (GetGroupVersionResource parent)
  /\ subresource_gvr parent path <> GetGroupVersionResource parent
  /\ gvr_GroupResource (subresource_gvr parent path)
     <> gvr_GroupResource (GetGroupVersionResource parent)
  /\ forall path',
       gvr_GroupResource (subresource_gvr parent path)
       = gvr_GroupResource (subresource_gvr parent path') ->
       path = path'.
Proof.
  split; [done|]. split; [done|].
  assert (Hne : Resource (GetGroupVersionResource parent) +:+ "/" +:+ path
                <> Resource (GetGroupVersionResource parent)).
  { apply append_neq. done. }
  split; [|split].
  - intros Heq. apply Hne. by apply (f_equal Resource) in Heq.
  - intros Heq. apply Hne. by apply (f_equal gr_Resource) in Heq.
  - intros path' Heq. apply (f_equal gr_Resource) in Heq. simpl in Heq.
    apply (inj (String.app _)) in Heq. by injection Heq.
Qed.

(** ** The variadic withGroupVersions *)

Lemma withGroupVersion_step s gv m :
  groupVersions s = Some m ->
  (gv ∈ dom m -> withGroupVersion s gv = s)
  /\ (gv ∉ dom m ->
      withGroupVersion s gv
      = set_groupVersions (Some (<[gv := true]> m)) (orderedGroupVersions s ++ [gv]) s).
Proof.
  intros Hm. unfold withGroupVersion. rewrite Hm. simpl.
  case_bool_decide as Hf; rewrite <- elem_of_dom in Hf; split; try done.
Qed.

Lemma foldl_withGroupVersion versions s m :
  groupVersions s = Some m ->
  NoDup (orderedGroupVersions s) ->
  (forall gv, gv ∈ orderedGroupVersions s <-> gv ∈ dom m) ->
  let s' := foldl withGroupVersion s versions in
  NoDup (orderedGroupVersions s')
  /\ (forall gv, gv ∈ orderedGroupVersions s'
                 <-> gv ∈ orderedGroupVersions s \/ gv ∈ versions)
  /\ (forall gv, gv ∈ orderedGroupVersions s'
                 <-> gv ∈ groupVersions_keys (groupVersions s'))
  /\ orderedGroupVersions s `prefix_of` orderedGroupVersions s'
  /\ groupVersions s' <> None.
Proof.
  revert s m. induction versions as [|gv versions IH]; intros s m Hm Hnd Hk; simpl.
  - rewrite Hm. simpl. split; [done|]. split.
    { intros gv. rewrite elem_of_nil. tauto. }
    done.
  - destruct (withGroupVersion_step s gv m Hm) as [Hin Hout].
    destruct (decide (gv ∈ dom m)) as [Hd|Hd].
    + rewrite (Hin Hd). destruct (IH s m Hm Hnd Hk) as (H1 & H2 & H3 & H4 & H5).
      split; [done|]. split; [|done].
      intros gv'. rewrite H2, elem_of_cons. split; [tauto|].
      intros [?|[->|?]]; [tauto| |tauto]. left. by apply Hk.
    + rewrite (Hout Hd).
      destruct (IH (set_groupVersions (Some (<[gv := true]> m))
                      (orderedGroupVersions s ++ [gv]) s) (<[gv := true]> m))
        as (H1 & H2 & H3 & H4 & H5); simpl.
      * done.
      * apply NoDup_app. split; [done|]. split; [|apply NoDup_singleton].
        intros x Hx ->%list_elem_of_singleton. by apply Hd, Hk.
      * intros gv'. rewrite elem_of_app, list_elem_of_singleton, dom_insert_L,
          elem_of_union, elem_of_singleton, Hk. tauto.
      * split; [done|]. split; [|split; [done|split; [|done]]].
        -- intros gv'. rewrite H2. simpl.
           rewrite elem_of_app, list_elem_of_singleton, elem_of_cons. tauto.
        -- etrans; [|exact H4]. simpl. by apply prefix_app_r.
Qed.

Lemma foldl_withGroupVersion_found versions s :
  (forall gv, gv ∈ versions -> gv_found (groupVersions s) gv = true) ->
  foldl withGroupVersion s versions = s.
Proof.
  induction versions as [|gv versions IH]; intros Hf; simpl; [done|].
  unfold withGroupVersion at 2. rewrite Hf by apply list_elem_of_here.
  apply IH. intros gv' Hgv'. apply Hf. by apply list_elem_of_further.
Qed.

(** X2. [withGroupVersions] with any number of versions, on a builder whose
    list of group-versions has no duplicate and matches the keys of its map:
    the list still has no duplicate and still matches the keys; it holds
    what it held and the versions given, the old ones first and in their
    order; the map is allocated, even when no version is given; and
    observing the same versions again changes nothing. *)
Theorem withGroupVersions_variadic (versions : list GroupVersion) (s : Server) :
  NoDup (orderedGroupVersions s) ->
  (forall gv, gv ∈ orderedGroupVersions s
              <-> gv ∈ groupVersions_keys (groupVersions s)) ->
  let s' := withGroupVersions versions s in
  NoDup (orderedGroupVersions s')
  /\ (forall gv, gv ∈ orderedGroupVersions s'
                 <-> gv ∈ orderedGroupVersions s \/ gv ∈ versions)
  /\ (forall gv, gv ∈ orderedGroupVersions s'
                 <-> gv ∈ groupVersions_keys (groupVersions s'))
  /\ orderedGroupVersions s `prefix_of` orderedGroupVersions s'
  /\ groupVersions s' <> None
  /\ withGroupVersions versions s' = s'.
Proof.
  intros Hnd Hk s'.
  assert (H : NoDup (orderedGroupVersions s')
    /\ (forall gv, gv ∈ orderedGroupVersions s'
                   <-> gv ∈ orderedGroupVersions s \/ gv ∈ versions)
    /\ (forall gv, gv ∈ orderedGroupVersions s'
                   <-> gv ∈ groupVersions_keys (groupVersions s'))
    /\ orderedGroupVersions s `prefix_of` orderedGroupVersions s'
    /\ groupVersions s' <> None).
  { subst s'. unfold withGroupVersions.
    destruct (groupVersions s) as [m|] eqn:Hm.
    - by apply (foldl_withGroupVersion versions s m).
    - apply (foldl_withGroupVersion versions
               (set_groupVersions (Some ∅) (orderedGroupVersions s) s) ∅); simpl.
      + done.
      + done.
      + intros gv. rewrite Hk. simpl. done. }
  destruct H as (H1 & H2 & H3 & H4 & H5).
  repeat (split; [done|]).
  unfold withGroupVersions. destruct (groupVersions s') as [m'|] eqn:Hm'; [|done].
  apply foldl_withGroupVersion_found. intros gv Hgv.
  apply gv_found_keys. rewrite Hm'. apply (proj1 (H3 gv)), (proj2 (H2 gv)). by right.
Qed.

Lemma withGroupVersions_variadic_witness :
  orderedGroupVersions
    (withGroupVersions [mkGV "apps" "v2"; mkGV "apps" "v1"; mkGV "apps" "v2"]
       (withGroupVersions [mkGV "apps" "v1"] APIServer))
  = [mkGV "apps" "v1"; mkGV "apps" "v2"]
  /\ NoDup (orderedGroupVersions
              (withGroupVersions [mkGV "apps" "v2"; mkGV "apps" "v1"; mkGV "apps" "v2"]
                 (withGroupVersions [mkGV "apps" "v1"] APIServer))).
Proof.
  split; [reflexivity|].
  destruct (withGroupVersions_variadic [mkGV "apps" "v1"] APIServer)
    as (Hnd & _ & Hk & _).
  - constructor.
  - intros gv. simpl. rewrite elem_of_nil, elem_of_empty. tauto.
  - apply (withGroupVersions_variadic
             [mkGV "apps" "v2"; mkGV "apps" "v1"; mkGV "apps" "v2"]
             (withGroupVersions [mkGV "apps" "v1"] APIServer) Hnd Hk).
Defined.

(** ** Registration is lazy *)

Lemma lazy_step_refl w : lazy_step w w.
Proof. split; [done|]. split; [done|]. intros s sv H1 H2. congruence. Qed.

Lemma lazy_step_trans w1 w2 w3 :
  lazy_step w1 w2 -> lazy_step w2 w3 -> lazy_step w1 w3.
Proof.
  intros (Hi1 & Hk1 & Hn1) (Hi2 & Hk2 & Hn2). split; [congruence|]. split.
  - intros s sv H. by apply Hk2, Hk1.
  - intros s sv Hnone Hsome. destruct (heap w2 !! s) as [sv2|] eqn:H2.
    + destruct (Hn1 s sv2 Hnone H2) as [sp ->].
      apply Hk2 in H2. rewrite H2 in Hsome. injection Hsome as <-. eauto.
    + by apply (Hn2 s sv).
Qed.

Lemma forGroupVersionResource_lazy gvr obj sp w :
  lazy_step w (forGroupVersionResource gvr obj sp w).
Proof.
  destruct (forGroupVersionResource_frame gvr obj sp w) as (_ & _ & _ & Hi).
  split; [done|].
  destruct (storage (a w) !! gvr_GroupResource gvr) as [s'|] eqn:Hf.
  - destruct (forGroupVersionResource_found gvr obj sp w s' Hf) as [_ ->].
    split; [done|]. intros s sv H1 H2. congruence.
  - destruct (forGroupVersionResource_not_found gvr obj sp w Hf) as [_ ->].
    split.
    + intros s sv Hs. rewrite lookup_insert_ne; [done|]. intros <-.
      apply (is_fresh (dom (heap w))). apply elem_of_dom. eauto.
    + intros s sv Hnone Hsome.
      apply lookup_insert_Some in Hsome as [[_ <-]|[_ Hsome]]; [eauto|congruence].
Qed.

Lemma set_a_lazy f w : lazy_step w (set_a f w).
Proof.
  split; [done|]. split; [done|]. intros s sv H1 H2. simpl in H2. congruence.
Qed.

Lemma register_lazy r w : lazy_step w (register r w).
Proof.
  destruct r; unfold_registration; repeat case_match;
    repeat first [ apply set_a_lazy
                 | apply forGroupVersionResource_lazy
                 | eapply lazy_step_trans; [|apply forGroupVersionResource_lazy] ].
Qed.

Lemma chain_lazy rs w : lazy_step w (chain rs w).
Proof.
  revert w. induction rs as [|r rs IH]; intros w; [apply lazy_step_refl|].
  simpl. eapply lazy_step_trans; [apply register_lazy|apply IH].
Qed.

(** X3. Registration is lazy. A chain of registration calls, from any state,
    calls no provider and no factory; a [singletonProvider] that exists keeps
    its fields, among them a result it holds; and one that the chain creates
    has not run: its flag is down and it holds neither storage nor error. *)
Theorem registration_is_lazy (rs : list Registration) (w : World) :
  invocations (chain rs w) = invocations w
  /\ (forall s sv, heap w !! s = Some sv -> heap (chain rs w) !! s = Some sv)
  /\ (forall s sv, heap w !! s = None -> heap (chain rs w) !! s = Some sv ->
        Once_done sv = false /\ sp_storage sv = None /\ sp_err sv = None).
Proof.
  destruct (chain_lazy rs w) as (Hi & Hk & Hn). split; [done|]. split; [done|].
  intros s sv Hnone Hsome. by destruct (Hn s sv Hnone Hsome) as [sp ->].
Qed.

(** ** The storage map and the heap of providers *)

Lemma forGroupVersionResource_registry gvr obj sp w :
  registry_inv w -> registry_inv (forGroupVersionResource gvr obj sp w).
Proof.
  intros [Hb Hinj Hh Hfr].
  destruct (storage (a w) !! gvr_GroupResource gvr) as [s0|] eqn:Hf.
  - destruct (forGroupVersionResource_found gvr obj sp w s0 Hf) as [Est Eh].
    split; rewrite ?Est, ?Eh, ?forGroupVersionResource_APIs; try done.
    intros gr. rewrite Hb. split.
    + intros [v Hv]. exists v. apply lookup_insert_is_Some'. by right.
    + intros [v Hv]. apply lookup_insert_is_Some' in Hv as [Hv|Hv]; [|eauto].
      apply Hb. replace gr with (gvr_GroupResource gvr); [eauto|].
      subst gvr. by destruct gr.
  - destruct (forGroupVersionResource_not_found gvr obj sp w Hf) as [Est Eh].
    assert (Hp : heap w !! fresh (dom (heap w)) = None).
    { apply not_elem_of_dom, is_fresh. }
    assert (Hnp : forall gr, storage (a w) !! gr <> Some (fresh (dom (heap w)))).
    { intros gr Hgr. assert (is_Some (heap w !! fresh (dom (heap w)))) as [? ?].
      { apply Hh. eauto. }
      congruence. }
    split; rewrite ?Est, ?Eh, ?forGroupVersionResource_APIs.
    + intros gr. rewrite lookup_insert_is_Some', Hb. split.
      * intros [<-|[v Hv]].
        -- exists (Version gvr). destruct gvr. simpl. rewrite lookup_insert_eq. eauto.
        -- exists v. apply lookup_insert_is_Some'. by right.
      * intros [v Hv]. apply lookup_insert_is_Some' in Hv as [Hv|Hv]; [|eauto].
        left. subst gvr. by destruct gr.
    + intros gr1 gr2 s.
      rewrite !lookup_insert_Some.
      intros [[<- <-]|[_ H1]] [[<- E2]|[_ H2]]; try done.
      * by destruct (Hnp gr2).
      * subst s. by destruct (Hnp gr1).
      * by eapply Hinj.
    + intros s. rewrite lookup_insert_is_Some', Hh. split.
      * intros [<-|[gr Hgr]].
        -- exists (gvr_GroupResource gvr). apply lookup_insert_eq.
        -- exists gr. rewrite lookup_insert_ne; [done|]. intros <-. congruence.
      * intros [gr Hgr]. apply lookup_insert_Some in Hgr as [[_ <-]|[_ Hgr]];
          [by left|right; eauto].
    + intros s sv. rewrite lookup_insert_Some. intros [[_ <-]|[_ Hs]]; [done|].
      by eapply Hfr.
Qed.

Lemma set_a_registry f w :
  storage (f (a w)) = storage (a w) ->
  registry_inv w -> registry_inv (set_a f w).
Proof. intros H1 [Hb Hinj Hh Hfr]. split; simpl; rewrite ?H1; done. Qed.

Lemma register_registry r w : registry_inv w -> registry_inv (register r w).
Proof.
  intros H. destruct r; unfold_registration; repeat case_match;
    repeat first [ apply forGroupVersionResource_registry
                 | apply set_a_registry; [done|] ];
    done.
Qed.

Lemma init_registry : registry_inv init.
Proof.
  split; simpl.
  - intros gr. rewrite lookup_empty. split; [by intros []|].
    intros [v Hv]. rewrite lookup_empty in Hv. by destruct Hv.
  - intros gr1 gr2 s. by rewrite lookup_empty.
  - intros s. rewrite lookup_empty. split; [by intros []|].
    intros [gr Hgr]. by rewrite lookup_empty in Hgr.
  - intros s sv. by rewrite lookup_empty.
Qed.

Lemma chain_registry rs w : registry_inv w -> registry_inv (chain rs w).
Proof.
  revert w. induction rs as [|r rs IH]; intros w Hw; [done|].
  simpl. apply IH. by apply register_registry.
Qed.

(** X4. In every state the builder reaches from a fresh process: a
    group-resource has an entry in the storage map exactly when some version
    of it is bound in [apiserver.APIs]; two group-resources never share a
    [singletonProvider]; the providers on the heap are those of the storage
    map, no entry dangles and no provider is unreachable; and no provider has
    run yet. *)
Theorem registry_invariant (rs : list Registration) :
  let w := chain rs init in
  (forall gr,
     is_Some (storage (a w) !! gr)
     <-> exists v, is_Some (APIs w !! mkGVR (gr_Group gr) v (gr_Resource gr)))
  /\ (forall gr1 gr2 s,
        storage (a w) !! gr1 = Some s -> storage (a w) !! gr2 = Some s -> gr1 = gr2)
  /\ (forall s, is_Some (heap w !! s) <-> exists gr, storage (a w) !! gr = Some s)
  /\ (forall s sv, heap w !! s = Some sv -> Once_done sv = false).
Proof.
  intros w. destruct (chain_registry rs init init_registry) as [H1 H2 H3 H4].
  done.
Qed.

(** ** No provider wraps a provider *)

Lemma forGroupVersionResource_unchained gvr obj sp w :
  unchained w ->
  (is_opaque sp = true
   \/ exists s, sp = singletonProvider_Get s
                /\ storage (a w) !! gvr_GroupResource gvr = Some s) ->
  unchained (forGroupVersionResource gvr obj sp w).
Proof.
  intros [Hh Hb] Hsp.
  destruct (storage (a w) !! gvr_GroupResource gvr) as [s0|] eqn:Hf.
  - destruct (forGroupVersionResource_found gvr obj sp w s0 Hf) as [Est Eh].
    split; rewrite ?Est, ?Eh, ?forGroupVersionResource_APIs; [done|].
    intros g s. rewrite lookup_insert_Some. intros [[<- ->]|[_ Hg]]; [|by apply Hb].
    destruct Hsp as [Ho|(s' & [= <-] & Hs')]; [done|]. congruence.
  - destruct (forGroupVersionResource_not_found gvr obj sp w Hf) as [Est Eh].
    assert (Ho : is_opaque sp = true).
    { destruct Hsp as [Ho|(s' & _ & Hs')]; [done|congruence]. }
    split; rewrite ?Est, ?Eh, ?forGroupVersionResource_APIs.
    + intros s sv. rewrite lookup_insert_Some. intros [[_ <-]|[_ Hs]]; [done|].
      by eapply Hh.
    + intros g s. rewrite lookup_insert_Some. intros [[<- ->]|[_ Hg]]; [done|].
      apply Hb in Hg. rewrite lookup_insert_ne; [done|]. intros E.
      rewrite <- E in Hg. congruence.
Qed.

Lemma set_a_unchained f w :
  storage (f (a w)) = storage (a w) ->
  unchained w -> unchained (set_a f w).
Proof. intros H1 [Hh Hb]. split; simpl; rewrite ?H1; done. Qed.

Lemma WithResource_unchained obj w : unchained w -> unchained (WithResource obj w).
Proof.
  intros Hw. unfold WithResource.
  set (w0 := set_a (schemeBuilder_Register [resource_AddToScheme obj]) w).
  assert (Hw0 : unchained w0) by by apply set_a_unchained.
  destruct (storage (a w0) !! _) as [s|] eqn:Hs.
  { apply forGroupVersionResource_unchained; [done|]. right. eauto. }
  repeat case_match;
    try (apply forGroupVersionResource_unchained; [done|by left]).
  - apply forGroupVersionResource_unchained.
    + apply forGroupVersionResource_unchained; [done|by left].
    + right. eauto.
  - apply forGroupVersionResource_unchained; [|by left].
    apply forGroupVersionResource_unchained; [done|by left].
Qed.

Lemma register_unchained r w :
  opaque_registration r -> unchained w -> unchained (register r w).
Proof.
  intros Hr Hw. destruct r; simpl in *.
  - by apply WithResource_unchained.
  - unfold WithResourceAndStrategy. case_match.
    + apply forGroupVersionResource_unchained; [|by left].
      apply forGroupVersionResource_unchained; [|by left].
      by apply set_a_unchained.
    + apply forGroupVersionResource_unchained; [|by left].
      by apply set_a_unchained.
  - unfold WithResourceAndHandler.
    apply forGroupVersionResource_unchained; [|by left]. by apply set_a_unchained.
  - unfold WithResourceAndStorage. case_match.
    + apply forGroupVersionResource_unchained; [|by left].
      apply forGroupVersionResource_unchained; [|by left].
      by apply set_a_unchained.
    + apply forGroupVersionResource_unchained; [|by left].
      by apply set_a_unchained.
  - unfold WithSubResource.
    destruct (storage (a w) !! _) as [s|] eqn:Hs.
    + apply forGroupVersionResource_unchained; [done|]. right. eauto.
    + by apply set_a_unchained.
  - unfold WithSubResourceAndStrategy.
    apply forGroupVersionResource_unchained; [done|by left].
  - unfold WithSubResourceAndHandler.
    apply forGroupVersionResource_unchained; [done|by left].
  - unfold WithAdditionalSchemeInstallers. by apply set_a_unchained.
  - unfold WithAdditionalSchemesToBuild. by apply set_a_unchained.
Qed.

Lemma chain_unchained rs w :
  Forall opaque_registration rs -> unchained w -> unchained (chain rs w).
Proof.
  intros Hrs. revert w. induction Hrs as [|r rs Hr Hrs IH]; intros w Hw; [done|].
  simpl. apply IH. by apply register_unchained.
Qed.

Lemma init_unchained : unchained init.
Proof. split; simpl; intros ? ?; by rewrite lookup_empty. Qed.

(** X5. After any chain of registration calls in a fresh process, the
    callers' own providers being functions of theirs: no
    [singletonProvider] wraps the [Get] of a [singletonProvider], and a key
    that is bound to a [Get] is bound to the provider of its own
    group-resource. So retrieving the handler of a bound key returns, two
    levels of calls are enough, and it invokes exactly one factory. *)
Theorem retrieval_returns
    (behave : list (ResourceHandlerProvider * Args) -> ResourceHandlerProvider -> Args -> Result)
    (rs : list Registration) :
  Forall opaque_registration rs ->
  let w := chain rs init in
  (forall s sv, heap w !! s = Some sv -> is_opaque (Provider sv) = true)
  /\ (forall gvr s,
        APIs w !! gvr = Some (singletonProvider_Get s) ->
        storage (a w) !! gvr_GroupResource gvr = Some s)
  /\ (forall gvr args fuel,
        is_Some (APIs w !! gvr) ->
        exists sp w',
          retrieve behave (S (S fuel)) gvr args w
          = Some (behave (invocations w) sp args, w')
          /\ is_opaque sp = true
          /\ invocations w' = invocations w ++ [(sp, args)]).
Proof.
  intros Hrs w.
  destruct (chain_unchained rs init Hrs init_unchained) as [Hh Hb]. fold w in Hh, Hb.
  destruct (chain_registry rs init init_registry) as [_ _ Hheap Hfresh].
  fold w in Hheap, Hfresh.
  split; [done|]. split; [done|].
  intros gvr args fuel [sp Hsp].
  destruct (is_opaque sp) eqn:Ho.
  - exists sp. eexists. split; [|split; [done|]].
    + by apply retrieve_opaque.
    + done.
  - destruct sp; try discriminate Ho.
    pose proof (Hb _ _ Hsp) as Hst.
    destruct (proj2 (Hheap s)) as [sv Hsv]; [eauto|].
    destruct (retrieve_singleton behave fuel gvr args w s sv) as (w' & Hr & Hi);
      [done|done|by eapply Hfresh|by eapply Hh|].
    exists (Provider sv), w'. split; [done|]. split; [by eapply Hh|done].
Qed.

Lemma retrieval_returns_witness :
  let w := chain [RWithResource widgets_v1; RWithResource widgets_v2;
                  RWithSubResourceAndHandler widgets_v1 "scale" widgets_v1 (Func 5)]
             init in
  exists sp w',
    retrieve fresh_storage 2 (mkGVR "apps" "v2" "widgets") (0, 0) w
    = Some (fresh_storage (invocations w) sp (0, 0), w')
    /\ is_opaque sp = true
    /\ invocations w' = invocations w ++ [(sp, (0, 0))].
Proof.
  intros w.
  destruct (retrieval_returns fresh_storage
              [RWithResource widgets_v1; RWithResource widgets_v2;
               RWithSubResourceAndHandler widgets_v1 "scale" widgets_v1 (Func 5)])
    as (_ & _ & H).
  - repeat constructor.
  - apply (H (mkGVR "apps" "v2" "widgets") (0, 0) 0). vm_compute. eauto.
Defined.

(** ** Versions that share a provider *)

(** X6. Two keys bound to the [Get] of one [singletonProvider] that has not
    run: retrieving the handler of one and then of the other, with any
    arguments, invokes the wrapped factory once, with the arguments of the
    first retrieval, and both retrievals return what the factory returned
    then. *)
Theorem versions_share_one_invocation
    (behave : list (ResourceHandlerProvider * Args) -> ResourceHandlerProvider -> Args -> Result)
    (fuel : nat) (gvr1 gvr2 : GroupVersionResource) (args1 args2 : Args)
    (w : World) (s : addr) (sv : singletonProvider) :
  APIs w !! gvr1 = Some (singletonProvider_Get s) ->
  APIs w !! gvr2 = Some (singletonProvider_Get s) ->
  heap w !! s = Some sv ->
  Once_done sv = false ->
  is_opaque (Provider sv) = true ->
  let r := behave (invocations w) (Provider sv) args1 in
  exists w1 w2,
    retrieve behave (S (S fuel)) gvr1 args1 w = Some (r, w1)
    /\ retrieve behave (S (S fuel)) gvr2 args2 w1 = Some (r, w2)
    /\ invocations w2 = invocations w ++ [(Provider sv, args1)].
Proof.
  intros H1 H2 Hs Hd Ho r.
  set (w1 := set_heap (<[s := mkSingleton true (Provider sv) r.1 r.2]>
                         (heap (record_invocation (Provider sv) args1 w)))
               (record_invocation (Provider sv) args1 w)).
  exists w1, w1. split; [|split].
  - unfold retrieve. rewrite H1.
    apply (Get_first behave (S fuel) s sv args1 w r); [done..|].
    by apply call_opaque.
  - unfold retrieve. change (APIs w1) with (APIs w). rewrite H2.
    change (call behave (S (S fuel)) (singletonProvider_Get s) args2 w1)
      with (Get behave (S fuel) s args2 w1).
    rewrite (Get_done behave (S fuel) s (mkSingleton true (Provider sv) r.1 r.2)).
    + by destruct r.
    + apply lookup_insert_eq.
    + done.
  - done.
Qed.

Lemma versions_share_one_invocation_witness :
  let w := chain [RWithResource widgets_v1; RWithResource widgets_v2;
                  RWithResource widgets_v3] init in
  exists w1 w2,
    retrieve fresh_storage 2 (mkGVR "apps" "v2" "widgets") (0, 0) w
    = Some ((Some 0, None), w1)
    /\ retrieve fresh_storage 2 (mkGVR "apps" "v3" "widgets") (0, 1) w1
       = Some ((Some 0, None), w2)
    /\ invocations w2 = [(rest_New widgets_v1, (0, 0))].
Proof.
  intros w.
  apply (versions_share_one_invocation fresh_storage 0
           (mkGVR "apps" "v2" "widgets") (mkGVR "apps" "v3" "widgets")
           (0, 0) (0, 1) w 0 (new_singletonProvider (rest_New widgets_v1)));
    reflexivity.
Defined.

(** ** The first registration of a resource *)

Lemma status_gvr_GroupResource_neq gvr :
  gvr_GroupResource (status_gvr gvr) <> gvr_GroupResource gvr.
Proof.
  intros Heq. apply (f_equal gr_Resource) in Heq. simpl in Heq.
  by apply append_neq in Heq.
Qed.

Lemma status_gvr_neq gvr : status_gvr gvr <> gvr.
Proof.
  intros Heq. apply (status_gvr_GroupResource_neq gvr). by rewrite Heq.
Qed.

(** X7. The first [WithResource] of a group-resource, for an object that
    does not serve itself and has a status sub-resource, the group-resource
    of the status being new as well: the key is bound to the default storage
    factory of the object and the status key to its status factory, and each
    of the two group-resources gets a [singletonProvider] of its own, newly
    allocated, wrapping that factory. *)
Theorem WithResource_first_registration (obj : Object) (w : World) :
  let gvr := GetGroupVersionResource obj in
  storage (a w) !! gvr_GroupResource gvr = None ->
  storage (a w) !! gvr_GroupResource (status_gvr gvr) = None ->
  isCreator obj = false -> isUpdater obj = false ->
  isGetter obj = false -> isLister obj = false ->
  isObjectWithStatusSubResource obj = true ->
  let w' := WithResource obj w in
  APIs w' !! gvr = Some (rest_New obj)
  /\ APIs w' !! status_gvr gvr = Some (rest_NewStatus obj)
  /\ exists s1 s2,
       s1 <> s2
       /\ heap w !! s1 = None /\ heap w !! s2 = None
       /\ storage (a w') !! gvr_GroupResource gvr = Some s1
       /\ storage (a w') !! gvr_GroupResource (status_gvr gvr) = Some s2
       /\ heap w' !! s1 = Some (new_singletonProvider (rest_New obj))
       /\ heap w' !! s2 = Some (new_singletonProvider (rest_NewStatus obj)).
Proof.
  intros gvr Hs Hst Hc Hu Hg Hl Hstatus w'.
  set (w0 := set_a (schemeBuilder_Register [resource_AddToScheme obj]) w).
  set (w1 := forGroupVersionResource gvr obj (rest_New obj) w0).
  destruct (forGroupVersionResource_not_found gvr obj (rest_New obj) w0 Hs)
    as [Est1 Eh1]. fold w1 in Est1, Eh1.
  assert (Hst1 : storage (a w1) !! gvr_GroupResource (status_gvr gvr) = None).
  { rewrite Est1, lookup_insert_ne; [done|].
    intros E. by apply (status_gvr_GroupResource_neq gvr). }
  assert (Hw' : w' = forGroupVersionResource (status_gvr gvr) obj (rest_NewStatus obj) w1).
  { subst w'. unfold WithResource. fold gvr. fold w0.
    change (storage (a w0)) with (storage (a w)). rewrite Hs, Hc, Hu, Hg, Hl, Hstatus.
    fold w1. by rewrite Hst1. }
  destruct (forGroupVersionResource_not_found (status_gvr gvr) obj
              (rest_NewStatus obj) w1 Hst1) as [Est2 Eh2].
  rewrite <- Hw' in Est2, Eh2.
  set (s1 := fresh (dom (heap w))).
  set (s2 := fresh (dom (heap w1))).
  change (fresh (dom (heap w0))) with s1 in Est1, Eh1.
  fold s2 in Est2, Eh2.
  assert (H1 : heap w !! s1 = None) by apply not_elem_of_dom, is_fresh.
  assert (H2 : heap w1 !! s2 = None) by apply not_elem_of_dom, is_fresh.
  assert (Hne : s1 <> s2).
  { intros E. rewrite <- E, Eh1, lookup_insert_eq in H2. done. }
  split; [|split].
  - rewrite Hw', forGroupVersionResource_APIs, lookup_insert_ne
      by apply status_gvr_neq.
    subst w1. rewrite forGroupVersionResource_APIs. apply lookup_insert_eq.
  - rewrite Hw', forGroupVersionResource_APIs. apply lookup_insert_eq.
  - exists s1, s2. split; [done|]. split; [done|]. split.
    { rewrite Eh1, lookup_insert_ne in H2 by done. done. }
    rewrite Est2, Eh2, Est1, Eh1. repeat split.
    + rewrite lookup_insert_ne by (intros E; by apply (status_gvr_GroupResource_neq gvr)).
      apply lookup_insert_eq.
    + apply lookup_insert_eq.
    + rewrite lookup_insert_ne by done. apply lookup_insert_eq.
    + apply lookup_insert_eq.
Qed.

Lemma WithResource_first_registration_witness :
  let w' := WithResource widgets_v1 init in
  APIs w' !! mkGVR "apps" "v1" "widgets" = Some (rest_New widgets_v1)
  /\ APIs w' !! mkGVR "apps" "v1" "widgets/status" = Some (rest_NewStatus widgets_v1).
Proof.
  intros w'.
  destruct (WithResource_first_registration widgets_v1 init) as (H1 & H2 & _);
    try reflexivity.
  exact (conj H1 H2).
Defined.

(** X8. The first [WithResource] of a group-resource, for an object that
    serves itself (it is a Creator, an Updater, a Getter or a Lister): the key
    is bound to the static provider of the object itself, a new
    [singletonProvider] wraps it, and the call ends there: the status key is
    not bound and gets no provider, whether or not the object has a status
    sub-resource. *)
Theorem WithResource_self_serving (obj : Object) (w : World) :
  let gvr := GetGroupVersionResource obj in
  storage (a w) !! gvr_GroupResource gvr = None ->
  isCreator obj || isUpdater obj || isGetter obj || isLister obj = true ->
  let w' := WithResource obj w in
  APIs w' !! gvr = Some (StaticHandlerProvider_Get obj)
  /\ APIs w' !! status_gvr gvr = APIs w !! status_gvr gvr
  /\ storage (a w') !! gvr_GroupResource (status_gvr gvr)
     = storage (a w) !! gvr_GroupResource (status_gvr gvr)
  /\ exists s,
       heap w !! s = None
       /\ storage (a w') !! gvr_GroupResource gvr = Some s
       /\ heap w' !! s = Some (new_singletonProvider (StaticHandlerProvider_Get obj)).
Proof.
  intros gvr Hs Hcaps w'.
  set (w0 := set_a (schemeBuilder_Register [resource_AddToScheme obj]) w).
  assert (Hw' : w' = forGroupVersionResource gvr obj (StaticHandlerProvider_Get obj) w0).
  { subst w'. unfold WithResource. fold gvr. fold w0.
    change (storage (a w0)) with (storage (a w)). rewrite Hs.
    destruct (isCreator obj); [done|]. destruct (isUpdater obj); [done|].
    destruct (isGetter obj); [done|]. destruct (isLister obj); [done|].
    discriminate Hcaps. }
  destruct (forGroupVersionResource_not_found gvr obj
              (StaticHandlerProvider_Get obj) w0 Hs) as [Est Eh].
  rewrite <- Hw' in Est, Eh.
  split; [|split; [|split]].
  - rewrite Hw', forGroupVersionResource_APIs. apply lookup_insert_eq.
  - rewrite Hw', forGroupVersionResource_APIs.
    apply lookup_insert_ne. intros E. by apply (status_gvr_neq gvr).
  - rewrite Est. apply lookup_insert_ne.
    intros E. by apply (status_gvr_GroupResource_neq gvr).
  - exists (fresh (dom (heap w))). split; [apply not_elem_of_dom, is_fresh|].
    rewrite Est, Eh. split; apply lookup_insert_eq.
Qed.

Lemma WithResource_self_serving_witness :
  let w' := WithResource gadgets_v1 init in
  APIs w' !! mkGVR "apps" "v1" "gadgets" = Some (StaticHandlerProvider_Get gadgets_v1)
  /\ APIs w' !! mkGVR "apps" "v1" "gadgets/status" = None.
Proof.
  intros w'.
  destruct (WithResource_self_serving gadgets_v1 init) as (H1 & H2 & _);
    try reflexivity.
  exact (conj H1 H2).
Defined.

(** ** What a call of a provider leaves alone *)

(** X9. A call of a provider that returns, through any nesting of
    [singletonProvider]s, changes nothing of the builder, of the bindings of
    [apiserver.APIs] and of the schemes; it allocates and frees no
    [singletonProvider] and leaves the provider each one wraps; it only adds
    to the invocations; and a [singletonProvider] that holds a result keeps
    that result. *)
Theorem call_frame
    (behave : list (ResourceHandlerProvider * Args) -> ResourceHandlerProvider -> Args -> Result)
    (fuel : nat) (sp : ResourceHandlerProvider) (args : Args)
    (w : World) (r : Result) (w' : World) :
  call behave fuel sp args w = Some (r, w') ->
  a w' = a w
  /\ APIs w' = APIs w
  /\ schemeOps w' = schemeOps w
  /\ dom (heap w') = dom (heap w)
  /\ invocations w `prefix_of` invocations w'
  /\ (forall s sv, heap w !! s = Some sv ->
        exists sv', heap w' !! s = Some sv' /\ Provider sv' = Provider sv)
  /\ (forall s sv, heap w !! s = Some sv -> Once_done sv = true ->
        heap w' !! s = Some sv).
Proof.
  revert sp args w r w'. induction fuel as [|fuel IH]; intros sp args w r w' Hc;
    [done|].
  assert (Hopaque : is_opaque sp = true ->
    Some (behave (invocations w) sp args, record_invocation sp args w) = Some (r, w') ->
    a w' = a w /\ APIs w' = APIs w /\ schemeOps w' = schemeOps w
    /\ dom (heap w') = dom (heap w)
    /\ invocations w `prefix_of` invocations w'
    /\ (forall s sv, heap w !! s = Some sv ->
          exists sv', heap w' !! s = Some sv' /\ Provider sv' = Provider sv)
    /\ (forall s sv, heap w !! s = Some sv -> Once_done sv = true ->
          heap w' !! s = Some sv)).
  { intros _ [= <- <-]. simpl. repeat split; try done.
    - by apply prefix_app_r.
    - eauto. }
  destruct sp; try (apply Hopaque; [done|exact Hc]).
  clear Hopaque. simpl in Hc. unfold Get_body in Hc.
  destruct (heap w !! s) as [sv0|] eqn:Hs0; [|done].
  destruct (Once_done sv0) eqn:Hd0.
  { injection Hc as <- <-. repeat split; try done. eauto. }
  destruct (call behave fuel (Provider sv0) args w) as [[r1 w1]|] eqn:Hc1; [|done].
  injection Hc as <- <-.
  destruct (IH _ _ _ _ _ Hc1) as (Ha & Hb & Ho & Hdom & Hi & Hp & Hk).
  simpl. repeat split; try done.
  - rewrite dom_insert_L, Hdom.
    assert (Hin : s ∈ dom (heap w)) by (apply elem_of_dom; eauto).
    apply set_eq. intros x. rewrite elem_of_union, elem_of_singleton.
    split; [by intros [->|?]|by right].
  - intros s' sv Hs'. destruct (decide (s = s')) as [<-|Hne].
    + rewrite lookup_insert_eq. eexists. split; [done|]. simpl. congruence.
    + rewrite lookup_insert_ne by done. by apply Hp.
  - intros s' sv Hs' Hd'. destruct (decide (s = s')) as [<-|Hne].
    + congruence.
    + rewrite lookup_insert_ne by done. by apply Hk.
Qed.

Lemma call_frame_witness :
  let w := chain [RWithResource widgets_v1; RWithResource widgets_v2] init in
  exists r w',
    call fresh_storage 2 (singletonProvider_Get 0) (0, 0) w = Some (r, w')
    /\ APIs w' = APIs w /\ dom (heap w') = dom (heap w).
Proof.
  intros w.
  assert (H : exists r w',
             call fresh_storage 2 (singletonProvider_Get 0) (0, 0) w = Some (r, w')).
  { eexists _, _. reflexivity. }
  destruct H as (r & w' & H). exists r, w'. split; [exact H|].
  destruct (call_frame fresh_storage 2 (singletonProvider_Get 0) (0, 0) w r w' H)
    as (_ & H1 & _ & H2 & _).
  exact (conj H1 H2).
Defined.

(** ** The deferred errors *)

Lemma register_errs_count r w :
  exists n,
    n <= (if is_WithSubResource r then 1 else 0)
    /\ errs (a (register r w)) = errs (a w) ++ replicate n subresource_error.
Proof.
  destruct r; unfold_registration; repeat case_match;
    rewrite ?forGroupVersionResource_errs; simpl;
    try (exists 0; split; [lia|by rewrite app_nil_r]).
  exists 1. split; [lia|done].
Qed.

Lemma chain_errs_count (rs : list Registration) (w : World) :
  exists n,
    n <= length (filter (fun r => is_WithSubResource r = true) rs)
    /\ errs (a (chain rs w)) = errs (a w) ++ replicate n subresource_error.
Proof.
  revert w. induction rs as [|r rs IH]; intros w.
  - exists 0. split; [done|]. simpl. by rewrite app_nil_r.
  - simpl. destruct (IH (register r w)) as (n & Hn & Hrs).
    destruct (register_errs_count r w) as (k & Hk & Hr).
    exists (k + n). split.
    + rewrite filter_cons. destruct (is_WithSubResource r) eqn:Hsub.
      * rewrite decide_True by done. simpl. lia.
      * rewrite decide_False by done. lia.
    + by rewrite Hrs, Hr, <- app_assoc, replicate_add.
Qed.

(** X10. The errors a chain of registration calls records are those of
    [WithSubResource]: the chain appends to [a.errs] only, every error it
    appends is the error of a sub-resource registered without a provider, and
    there are no more of them than calls of [WithSubResource]. *)
Theorem deferred_errors (rs : list Registration) (w : World) :
  exists n,
    n <= length (filter (fun r => is_WithSubResource r = true) rs)
    /\ errs (a (chain rs w)) = errs (a w) ++ replicate n subresource_error.
Proof.
  exact (chain_errs_count rs w).
Qed.

(** ** What the registration calls register with the scheme builder *)

Lemma forGroupVersionResource_schemeBuilder gvr obj sp w :
  schemeBuilder (a (forGroupVersionResource gvr obj sp w)) = schemeBuilder (a w)
  /\ schemes (a (forGroupVersionResource gvr obj sp w)) = schemes (a w).
Proof. by destruct (forGroupVersionResource_frame gvr obj sp w) as (_ & -> & -> & _). Qed.

Lemma register_schemeBuilder r w :
  schemeBuilder (a (register r w)) = schemeBuilder (a w) ++ installers_of r
  /\ schemes (a (register r w)) = schemes (a w) ++ schemes_of r.
Proof.
  destruct r; unfold_registration; repeat case_match;
    repeat (rewrite !(proj1 (forGroupVersionResource_schemeBuilder _ _ _ _)),
                    !(proj2 (forGroupVersionResource_schemeBuilder _ _ _ _)));
    simpl; rewrite ?app_nil_r; done.
Qed.

(** X11. After a chain of registration calls the scheme builder holds, behind
    what it held and in the order of the calls, one [resource.AddToScheme] of
    the object for every call of [WithResource] and of its three variants,
    and the installers of [WithAdditionalSchemeInstallers]; the calls that
    register sub-resources add none, neither for the parent nor for the
    request. The schemes to build grow only by those of
    [WithAdditionalSchemesToBuild]. *)
Theorem chain_schemeBuilder (rs : list Registration) (w : World) :
  schemeBuilder (a (chain rs w)) = schemeBuilder (a w) ++ concat (installers_of <$> rs)
  /\ schemes (a (chain rs w)) = schemes (a w) ++ concat (schemes_of <$> rs).
Proof.
  revert w. induction rs as [|r rs IH]; intros w; simpl.
  - by rewrite !app_nil_r.
  - destruct (IH (register r w)) as [-> ->].
    destruct (register_schemeBuilder r w) as [-> ->].
    by rewrite <- !app_assoc.
Qed.

(** ** The operations of Build on the schemes *)

Section RunFacts.

Variable fails : list SchemeOp -> SchemeOp -> option error.

Lemma runs_nil w : runs fails (None, w) w [].
Proof. exists []. simpl. rewrite app_nil_r. repeat split; done. Qed.

Lemma runs_stop err w w1 e1 e2 :
  runs fails (Some err, w1) w e1 -> runs fails (Some err, w1) w (e1 ++ e2).
Proof.
  intros (ops & Ha & Hb & Hh & Hi & Ho & Hp & Hn & Hf).
  exists ops. repeat (split; [done|]). split; [|split; [done|done]].
  by apply prefix_app_r.
Qed.

Lemma runs_cont res w w1 e1 e2 :
  runs fails (None, w1) w e1 -> runs fails res w1 e2 -> runs fails res w (e1 ++ e2).
Proof.
  intros (ops1 & Ha1 & Hb1 & Hh1 & Hi1 & Ho1 & Hp1 & Hn1 & Hf1)
         (ops2 & Ha2 & Hb2 & Hh2 & Hi2 & Ho2 & Hp2 & Hn2 & Hf2).
  simpl in *. rewrite (Hn1 eq_refl) in Ho1.
  exists (e1 ++ ops2). split; [congruence|]. split; [congruence|].
  split; [congruence|]. split; [congruence|]. split.
  { by rewrite Ho2, Ho1, <- app_assoc. }
  split; [by apply prefix_app|]. split; [|done].
  intros Hres. by rewrite (Hn2 Hres).
Qed.

Lemma apply_op_runs op w : runs fails (apply_op fails op w) w [op].
Proof. exists [op]. simpl. repeat split; try done; intros Hf; apply Hf. Qed.

Lemma log_op_runs op w : runs fails (None, log_op op w) w [op].
Proof. exists [op]. simpl. repeat split; done. Qed.

Lemma setVersionPriorities_runs scheme groups w :
  runs fails (setVersionPriorities fails scheme groups w) w
    ((fun gvs => SetVersionPriority scheme (priorityArgs gvs.1 gvs.2)) <$> groups).
Proof.
  revert w. induction groups as [|[g versions] groups IH]; intros w; simpl.
  - apply runs_nil.
  - pose proof (apply_op_runs (SetVersionPriority scheme (priorityArgs g versions)) w)
      as H.
    unfold apply_op in *. destruct (fails _ _) as [err|].
    + apply (runs_stop err w _ [_]). exact H.
    + eapply (runs_cont _ w _ [_]); [exact H|apply IH].
Qed.

Lemma log_ops_runs scheme gvs w :
  runs fails
    (None, foldl (fun w gv => log_op (AddToGroupVersion scheme gv) w) w gvs) w
    (AddToGroupVersion scheme <$> gvs).
Proof.
  revert w. induction gvs as [|gv gvs IH]; intros w; simpl.
  - apply runs_nil.
  - apply (runs_cont _ w (log_op (AddToGroupVersion scheme gv) w) [_]);
      [apply log_op_runs|apply IH].
Qed.

Lemma run_installer_runs fn scheme w :
  runs fails (run_installer fails fn scheme w) w
    (installer_ops (APIs w) (orderedGroupVersions (a w)) scheme fn).
Proof.
  destruct fn; try apply apply_op_runs.
  simpl. unfold run_versionPriorityInstaller.
  pose proof (setVersionPriorities_runs scheme
                (map_to_list (collectGroupVersions (APIs w))) w) as H.
  destruct (setVersionPriorities _ _ _ _) as [[err|] w1].
  - by apply runs_stop.
  - eapply runs_cont; [exact H|].
    destruct H as (_ & Ha & _). simpl in Ha. rewrite Ha. apply log_ops_runs.
Qed.

Lemma AddToScheme_runs fns scheme w :
  runs fails (AddToScheme fails fns scheme w) w
    (scheme_ops (APIs w) (orderedGroupVersions (a w)) fns scheme).
Proof.
  revert w. induction fns as [|fn fns IH]; intros w; simpl.
  - apply runs_nil.
  - pose proof (run_installer_runs fn scheme w) as H.
    destruct (run_installer _ _ _ _) as [[err|] w1].
    + by apply runs_stop.
    + eapply runs_cont; [exact H|].
      destruct H as (_ & Ha & Hb & _). simpl in Ha, Hb. rewrite <- Ha, <- Hb.
      apply IH.
Qed.

Lemma AddToSchemes_runs ss w :
  runs fails (AddToSchemes fails ss w) w
    (build_ops (APIs w) (orderedGroupVersions (a w)) (schemeBuilder (a w)) ss).
Proof.
  revert w. induction ss as [|scheme ss IH]; intros w; simpl.
  - apply runs_nil.
  - pose proof (AddToScheme_runs (schemeBuilder (a w)) scheme w) as H.
    destruct (AddToScheme _ _ _ _) as [[err|] w1].
    + by apply runs_stop.
    + eapply runs_cont; [exact H|].
      destruct H as (_ & Ha & Hb & _). simpl in Ha, Hb. rewrite <- Ha, <- Hb.
      apply IH.
Qed.

Lemma Build_world w :
  (Build fails w).2
  = (AddToSchemes fails (schemes (a (Build_register w))) (Build_register w)).2
  /\ ((AddToSchemes fails (schemes (a (Build_register w))) (Build_register w)).1 = None
      <-> forall err, (Build fails w).1 <> Panic err).
Proof.
  unfold Build.
  destruct (AddToSchemes _ _ _) as [[err|] w1]; simpl.
  - split; [done|]. split; [done|]. intros H. by destruct (H err).
  - split; [by destruct (negb _)|]. split; [|done]. intros _ err.
    by destruct (negb _).
Qed.

End RunFacts.



(** X12. [Build], however it ends, changes nothing of what was registered:
    the storage map, the bindings of [apiserver.APIs], the providers, the
    group-versions and their order, the recorded errors and the invocations
    of factories are as before. It adds [apiserver.Scheme] to the schemes to
    build and the installer of the version priorities to the scheme builder,
    so a second [Build] would find both twice; and it only adds to the
    operations applied to schemes. *)
Theorem Build_frame (fails : list SchemeOp -> SchemeOp -> option error) (w : World) :
  let w' := (Build fails w).2 in
  storage (a w') = storage (a w)
  /\ APIs w' = APIs w
  /\ heap w' = heap w
  /\ groupVersions (a w') = groupVersions (a w)
  /\ orderedGroupVersions (a w') = orderedGroupVersions (a w)
  /\ errs (a w') = errs (a w)
  /\ invocations w' = invocations w
  /\ schemes (a w') = schemes (a w) ++ [apiserver_Scheme]
  /\ schemeBuilder (a w') = schemeBuilder (a w) ++ [versionPriorityInstaller]
  /\ schemeOps w `prefix_of` schemeOps w'.
Proof.
  intros w'. subst w'. rewrite (proj1 (Build_world fails w)).
  destruct (AddToSchemes_runs fails (schemes (a (Build_register w))) (Build_register w))
    as (ops & Ha & Hb & Hh & Hi & Ho & _).
  rewrite Ha, Hb, Hh, Hi, Ho. simpl. repeat split; try done.
  by apply prefix_app_r.
Qed.

Lemma Build_runs (fails : list SchemeOp -> SchemeOp -> option error) (w : World) :
  let expected :=
    build_ops (APIs w) (orderedGroupVersions (a w))
      (schemeBuilder (a w) ++ [versionPriorityInstaller])
      (schemes (a w) ++ [apiserver_Scheme]) in
  exists ops,
    schemeOps (Build fails w).2 = schemeOps w ++ ops
    /\ ops `prefix_of` expected
    /\ ((forall err, (Build fails w).1 <> Panic err) -> ops = expected)
    /\ ((forall l op, fails l op = None) ->
        forall err, (Build fails w).1 <> Panic err).
Proof.
  intros expected.
  destruct (Build_world fails w) as [Hw Hp]. rewrite Hw.
  destruct (AddToSchemes_runs fails (schemes (a (Build_register w))) (Build_register w))
    as (ops & _ & _ & _ & _ & Ho & Hpre & Hn & Hf).
  exists ops. split; [exact Ho|]. split; [exact Hpre|]. split.
  - intros Hnp. apply Hn, Hp, Hnp.
  - intros Hnf. apply Hp, Hf, Hnf.
Qed.



(** X14. A chain of registration calls without [WithSubResource], in a fresh
    process, followed by a [Build] during which no operation on a scheme
    fails: [Build] returns a command and no error, and the command is made
    for the observed group-versions in first-seen order. *)
Theorem Build_succeeds
    (fails : list SchemeOp -> SchemeOp -> option error) (rs : list Registration) :
  Forall (fun r => is_WithSubResource r = false) rs ->
  (forall l op, fails l op = None) ->
  (Build fails (chain rs init)).1
  = Return (Some (NewCommandStartServer (orderedGroupVersions (a (chain rs init)))))
      None.
Proof.
  intros Hrs Hnf.
  destruct (Build_runs fails (chain rs init)) as (_ & _ & _ & _ & Hnp).
  rewrite (Build_returns fails _ (Hnp Hnf)).
  destruct (chain_errs_count rs init) as (n & Hn & ->).
  assert (Hlen : length (filter (fun r => is_WithSubResource r = true) rs) = 0).
  { clear -Hrs. induction Hrs as [|r rs Hr Hrs IH]; [done|].
    rewrite filter_cons, decide_False; [done|]. by rewrite Hr. }
  assert (n = 0) as -> by lia. done.
Qed.

Lemma Build_succeeds_witness :
  (Build no_failure (chain [RWithResource widgets_v1; RWithResource widgets_v2] init)).1
  = Return (Some (NewCommandStartServer [mkGV "apps" "v1"; mkGV "apps" "v2"])) None.
Proof.
  apply (Build_succeeds no_failure [RWithResource widgets_v1; RWithResource widgets_v2]).
  - repeat constructor.
  - reflexivity.
Defined.

(** ** Defaulting functions *)








(** ** The arguments of SetVersionPriority *)

(** X16. Whatever [apiserver.APIs] holds, a group has versions collected
    exactly when one of its keys is bound, and the argument of its
    [SetVersionPriority] is well formed: it is not empty, it names each
    version once, every group-version in it is of that group, its versions
    are those of the bound keys of the group, and they stand in increasing
    order. *)
Theorem SetVersionPriority_arguments
    (apis : gmap GroupVersionResource ResourceHandlerProvider)
    (g : string) (versions : gset string) :
  collectGroupVersions apis !! g = Some versions ->
  let gvs := priorityArgs g versions in
  gvs <> []
  /\ NoDup gvs
  /\ (forall gv, gv ∈ gvs
                 <-> gv_Group gv = g
                     /\ exists r, is_Some (apis !! mkGVR g (gv_Version gv) r))
  /\ StronglySorted String.le (gv_Version <$> gvs)
  /\ (forall g', is_Some (collectGroupVersions apis !! g')
                 <-> exists v r, is_Some (apis !! mkGVR g' v r)).
Proof.
  intros Hg gvs.
  pose proof (collectGroupVersions_spec apis g) as Hspec. rewrite Hg in Hspec.
  destruct Hspec as [[v0 Hv0] Hspec].
  subst gvs. unfold priorityArgs. split; [|split; [|split; [|split]]].
  - apply sets_String_List_elem_of in Hv0.
    destruct (sets_String_List versions); [by apply elem_of_nil in Hv0|done].
  - apply NoDup_fmap_2; [|apply sets_String_List_NoDup].
    by intros v1 v2 [= ->].
  - intros gv. rewrite list_elem_of_fmap. split.
    + intros (v & -> & Hv). split; [done|]. simpl.
      by apply Hspec, sets_String_List_elem_of.
    + intros [<- Hr]. exists (gv_Version gv). split; [by destruct gv|].
      by apply sets_String_List_elem_of, Hspec.
  - assert (Hid : forall l : list string, gv_Version <$> (mkGV g <$> l) = l).
    { intros l. induction l as [|v l IH]; csimpl; [done|]. by rewrite IH. }
    rewrite Hid. apply sets_String_List_Sorted.
  - intros g'. pose proof (collectGroupVersions_spec apis g') as Hspec'.
    destruct (collectGroupVersions apis !! g') as [vs'|].
    + destruct Hspec' as [[v Hv] Hspec']. split; [|eauto].
      intros _. apply Hspec' in Hv as [r Hr]. eauto.
    + split; [by intros []|]. intros (v & r & Hr). rewrite Hspec' in Hr.
      by destruct Hr.
Qed.

Lemma SetVersionPriority_arguments_witness :
  priorityArgs "apps" {[ "v1"; "v2" ]} <> []
  /\ NoDup (priorityArgs "apps" {[ "v1"; "v2" ]}).
Proof.
  destruct (SetVersionPriority_arguments
              (APIs (chain [RWithResource widgets_v2; RWithResource widgets_v1] init))
              "apps" {[ "v1"; "v2" ]}) as (H1 & H2 & _).
  - vm_compute. reflexivity.
  - exact (conj H1 H2).
Defined.

(** ** A status provider registered before the resource *)

(** X17. The first [WithResource] of a group-resource whose status
    sub-resource already has a provider (registered before, as a
    sub-resource), for an object that does not serve itself and has a
    status sub-resource: the status key of the new version is bound to the
    [Get] of the provider that exists, that provider is kept as it is, and
    the status factory of the object is not used. *)
Theorem WithResource_reuses_status (obj : Object) (w : World)
    (s : addr) (sv : singletonProvider) :
  let gvr := GetGroupVersionResource obj in
  storage (a w) !! gvr_GroupResource gvr = None ->
  storage (a w) !! gvr_GroupResource (status_gvr gvr) = Some s ->
  heap w !! s = Some sv ->
  isCreator obj = false -> isUpdater obj = false ->
  isGetter obj = false -> isLister obj = false ->
  isObjectWithStatusSubResource obj = true ->
  let w' := WithResource obj w in
  APIs w' !! gvr = Some (rest_New obj)
  /\ APIs w' !! status_gvr gvr = Some (singletonProvider_Get s)
  /\ storage (a w') !! gvr_GroupResource (status_gvr gvr) = Some s
  /\ heap w' !! s = Some sv
  /\ forall s' sv', heap w' !! s' = Some sv' -> Provider sv' = rest_NewStatus obj ->
                    heap w !! s' = Some sv'.
Proof.
  intros gvr Hs Hst Hsv Hc Hu Hg Hl Hstatus w'.
  set (w0 := set_a (schemeBuilder_Register [resource_AddToScheme obj]) w).
  set (w1 := forGroupVersionResource gvr obj (rest_New obj) w0).
  destruct (forGroupVersionResource_not_found gvr obj (rest_New obj) w0 Hs)
    as [Est1 Eh1]. fold w1 in Est1, Eh1.
  assert (Hst1 : storage (a w1) !! gvr_GroupResource (status_gvr gvr) = Some s).
  { rewrite Est1, lookup_insert_ne; [done|].
    intros E. by apply (status_gvr_GroupResource_neq gvr). }
  assert (Hw' : w' = forGroupVersionResource (status_gvr gvr) obj
                       (singletonProvider_Get s) w1).
  { subst w'. unfold WithResource. fold gvr. fold w0.
    change (storage (a w0)) with (storage (a w)). rewrite Hs, Hc, Hu, Hg, Hl, Hstatus.
    fold w1. by rewrite Hst1. }
  destruct (forGroupVersionResource_found (status_gvr gvr) obj
              (singletonProvider_Get s) w1 s Hst1) as [Est2 Eh2].
  rewrite <- Hw' in Est2, Eh2.
  assert (Hfresh : heap w !! fresh (dom (heap w)) = None)
    by apply not_elem_of_dom, is_fresh.
  split; [|split; [|split; [|split]]].
  - rewrite Hw', forGroupVersionResource_APIs, lookup_insert_ne
      by apply status_gvr_neq.
    subst w1. rewrite forGroupVersionResource_APIs. apply lookup_insert_eq.
  - rewrite Hw', forGroupVersionResource_APIs. apply lookup_insert_eq.
  - by rewrite Est2.
  - rewrite Eh2, Eh1. rewrite lookup_insert_ne; [done|].
    intros E. change (heap w0) with (heap w) in E. congruence.
  - intros s' sv'. rewrite Eh2, Eh1. change (heap w0) with (heap w).
    rewrite lookup_insert_Some. intros [[_ <-]|[_ H]] Hp; [done|done].
Qed.

Lemma WithResource_reuses_status_witness :
  let w := WithSubResourceAndHandler widgets_v1 "status" widgets_v1 (Func 9) init in
  APIs (WithResource widgets_v2 w) !! mkGVR "apps" "v2" "widgets/status"
  = Some (singletonProvider_Get 0).
Proof.
  intros w.
  destruct (WithResource_reuses_status widgets_v2 w 0 (new_singletonProvider (Func 9)))
    as (_ & H & _); [reflexivity..|exact H].
Defined.

(** ** The lines of the aggregate error, whatever the messages *)

Lemma lines_nonempty s : lines s <> [].
Proof. destruct s as [|c s]; simpl; [done|]. case_decide; [done|]. by destruct (lines s). Qed.

Lemma lines_append_break s t :
  lines (s +:+ String newline t) = lines s ++ lines t.
Proof.
  induction s as [|c s IH]; [done|].
  rewrite append_cons. simpl. case_decide.
  - by rewrite IH.
  - rewrite IH. pose proof (lines_nonempty s). by destruct (lines s).
Qed.

Lemma lines_separated_all h msgs :
  lines (h +:+ separated (String newline "") msgs)
  = lines h ++ concat (lines <$> msgs).
Proof.
  revert h. induction msgs as [|m msgs IH]; intros h; simpl.
  - by rewrite append_nil_r, app_nil_r.
  - change (String newline "" +:+ m +:+ separated (String newline "") msgs)
      with (String newline (m +:+ separated (String newline "") msgs)).
    by rewrite lines_append_break, IH.
Qed.

(** X18. The lines of the text of the aggregate error, whatever the
    messages: the count line, then the lines of the message of every error,
    in the order of the list. An error whose message has several lines takes
    several lines, so the text has at least one line more than there are
    errors. *)
Theorem errs_Error_all_lines (l : list error) :
  lines (errs_Error (mk_errs l))
  = (Sprintf_d (length l) +:+ " errors: ") :: concat ((fun e => lines (Error e)) <$> l)
  /\ length l < length (lines (errs_Error (mk_errs l))).
Proof.
  assert (H : lines (errs_Error (mk_errs l))
              = (Sprintf_d (length l) +:+ " errors: ")
                  :: concat ((fun e => lines (Error e)) <$> l)).
  { rewrite errs_Error_Join, strings_Join_cons, lines_separated_all.
    rewrite lines_single
      by (by rewrite has_newline_append, has_newline_Sprintf_d).
    by rewrite <- list_fmap_compose. }
  split; [done|]. rewrite H. simpl. apply Nat.lt_succ_r.
  clear H. induction l as [|e l IH]; csimpl; [done|].
  rewrite length_app. pose proof (lines_nonempty (Error e)).
  destruct (lines (Error e)); [done|]. csimpl. lia.
Qed.

(** ** Execute *)

(** X19. [Execute] runs the command only when no error was recorded. When
    [Build] does not panic: with a recorded error [Execute] returns the
    aggregate error of the recorded errors, whatever the command would do;
    with none it returns what the command returns, the command being the one
    for the observed group-versions. It never calls a method of a nil
    command. When [Build] panics, so does [Execute]. *)
Theorem Execute_outcome
    (cmd_Execute : Command -> option error)
    (fails : list SchemeOp -> SchemeOp -> option error) (w : World) :
  ((forall err, (Build fails w).1 <> Panic err) ->
   (Execute cmd_Execute fails w).1
   = if negb (length (errs (a w)) =? 0)
     then ExecuteReturn (Some (inl (mk_errs (errs (a w)))))
     else ExecuteReturn
            (inr <$> cmd_Execute (NewCommandStartServer (orderedGroupVersions (a w)))))
  /\ (forall err, (Build fails w).1 = Panic err ->
                  (Execute cmd_Execute fails w).1 = ExecutePanic err)
  /\ (Execute cmd_Execute fails w).2 = (Build fails w).2.
Proof.
  split; [|split].
  - intros Hnp. pose proof (Build_returns fails w Hnp) as Hb. unfold Execute.
    destruct (Build fails w) as [o w']. simpl in Hb. subst o.
    by destruct (negb _).
  - intros err Hb. unfold Execute. destruct (Build fails w) as [o w'].
    simpl in Hb. by subst o.
  - unfold Execute. destruct (Build fails w) as [[[cmd|] [err|]|err] w']; done.
Qed.

Lemma Execute_outcome_witness :
  (Execute (fun _ => Some (Errorf "listen: address already in use")) no_failure
     (chain [RWithResource widgets_v1; RWithSubResource widgets_v1 "scale" widgets_v1]
        init)).1
  = ExecuteReturn (Some (inl (mk_errs [subresource_error]))).
Proof.
  apply (proj1 (Execute_outcome
                  (fun _ => Some (Errorf "listen: address already in use")) no_failure
                  (chain [RWithResource widgets_v1;
                          RWithSubResource widgets_v1 "scale" widgets_v1] init))).
  intros err. vm_compute. discriminate.
Defined.

(** * The claims on registration, once more *)

(** ** Every entry point records the group-version of its key *)

Lemma observe_elem_of gv ordered : gv ∈ observe gv ordered.
Proof.
  unfold observe. case_decide; [done|]. apply elem_of_app. right.
  by apply list_elem_of_singleton.
Qed.

Lemma observe_idem gv ordered : observe gv (observe gv ordered) = observe gv ordered.
Proof.
  unfold observe at 1. rewrite decide_True; [done|]. apply observe_elem_of.
Qed.

Lemma forGroupVersionResource_observe gvr obj sp w :
  builder_inv w ->
  orderedGroupVersions (a (forGroupVersionResource gvr obj sp w))
  = observe (gvr_GroupVersion gvr) (orderedGroupVersions (a w)).
Proof.
  intros Hw.
  destruct (forGroupVersionResource_versions gvr obj sp w) as [-> _].
  destruct (withGroupVersions_single (gvr_GroupVersion gvr) (a w)) as [Hin Hout].
  unfold observe. case_decide as Hd.
  - apply (inv_keys w Hw) in Hd. by destruct (Hin Hd).
  - assert (Hd' : gvr_GroupVersion gvr ∉ groupVersions_keys (groupVersions (a w))).
    { intros H. by apply Hd, (inv_keys w Hw). }
    by destruct (Hout Hd').
Qed.

Lemma registers_first gvr obj sp w :
  builder_inv w -> registers gvr w (forGroupVersionResource gvr obj sp w).
Proof.
  intros Hw. split; [by apply forGroupVersionResource_inv|]. split.
  - rewrite forGroupVersionResource_APIs, lookup_insert_eq. eauto.
  - by apply forGroupVersionResource_observe.
Qed.

Lemma registers_more gvr gvr2 obj sp w w1 :
  gvr_GroupVersion gvr2 = gvr_GroupVersion gvr ->
  registers gvr w w1 -> registers gvr w (forGroupVersionResource gvr2 obj sp w1).
Proof.
  intros Hgv (Hw1 & Hb & Ho). split; [by apply forGroupVersionResource_inv|]. split.
  - rewrite forGroupVersionResource_APIs. apply lookup_insert_is_Some'. by right.
  - rewrite forGroupVersionResource_observe by done.
    by rewrite Hgv, Ho, observe_idem.
Qed.

Lemma registers_after_Register gvr obj sp fns w :
  builder_inv w ->
  registers gvr w
    (forGroupVersionResource gvr obj sp (set_a (schemeBuilder_Register fns) w)).
Proof.
  intros Hw.
  exact (registers_first gvr obj sp (set_a (schemeBuilder_Register fns) w)
           (set_a_inv (schemeBuilder_Register fns) w eq_refl eq_refl eq_refl Hw)).
Qed.

Lemma register_registers r gvr w :
  builder_inv w ->
  registered_key r = Some gvr ->
  (is_WithSubResource r = true -> is_Some (storage (a w) !! gvr_GroupResource gvr)) ->
  registers gvr w (register r w).
Proof.
  intros Hw Hkey Hsub.
  destruct r; simpl in Hkey; try discriminate Hkey; injection Hkey as <-; simpl.
  - unfold WithResource. repeat case_match;
      repeat first [ apply registers_after_Register; done
                   | apply registers_more; [done|] ].
  - unfold WithResourceAndStrategy. case_match;
      repeat first [ apply registers_after_Register; done
                   | apply registers_more; [done|] ].
  - unfold WithResourceAndHandler. by apply registers_after_Register.
  - unfold WithResourceAndStorage. case_match;
      repeat first [ apply registers_after_Register; done
                   | apply registers_more; [done|] ].
  - unfold WithSubResource. destruct (Hsub eq_refl) as [s ->].
    by apply registers_first.
  - unfold WithSubResourceAndStrategy. by apply registers_first.
  - unfold WithSubResourceAndHandler. by apply registers_first.
Qed.

(** C9. In every state the builder reaches from a fresh process, whatever
    the registration calls: [orderedGroupVersions] has no group-version twice,
    its elements are the keys of [groupVersions], and the group-version of
    every key bound in [apiserver.APIs] is among them. Every registration
    entry point ([WithResource] and its Strategy, Handler and Storage
    variants, [WithSubResource] when it reuses a provider, and its Strategy
    and Handler variants) binds its key and records the group-version of the
    key: the list becomes the list with that group-version observed, at the
    end when it is new and not at all when it was seen before. So the
    group-versions stand in first-seen order, each once. *)
Theorem orderedGroupVersions_invariant (rs : list Registration) :
  let w := chain rs init in
  NoDup (orderedGroupVersions (a w))
  /\ (forall gv, gv ∈ orderedGroupVersions (a w)
                 <-> gv ∈ groupVersions_keys (groupVersions (a w)))
  /\ (forall gvr, is_Some (APIs w !! gvr) ->
                  gvr_GroupVersion gvr ∈ orderedGroupVersions (a w))
  /\ (forall gvr obj sp,
        let w' := forGroupVersionResource gvr obj sp w in
        APIs w' !! gvr = Some sp
        /\ gvr_GroupVersion gvr ∈ orderedGroupVersions (a w')
        /\ gvr_GroupVersion gvr ∈ groupVersions_keys (groupVersions (a w')))
  /\ (forall r,
        orderedGroupVersions (a w)
          `prefix_of` orderedGroupVersions (a (chain (rs ++ [r]) init)))
  /\ (forall r gvr,
        registered_key r = Some gvr ->
        (is_WithSubResource r = true ->
         is_Some (storage (a w) !! gvr_GroupResource gvr)) ->
        let w' := register r w in
        is_Some (APIs w' !! gvr)
        /\ gvr_GroupVersion gvr ∈ orderedGroupVersions (a w')
        /\ gvr_GroupVersion gvr ∈ groupVersions_keys (groupVersions (a w'))
        /\ orderedGroupVersions (a w')
           = if decide (gvr_GroupVersion gvr ∈ orderedGroupVersions (a w))
             then orderedGroupVersions (a w)
             else orderedGroupVersions (a w) ++ [gvr_GroupVersion gvr]).
Proof.
  intros w.
  destruct (orderedGroupVersions_reachable rs) as (H1 & H2 & H3 & H4 & H5).
  fold w in H1, H2, H3, H4, H5.
  repeat (split; [done|]).
  intros r gvr Hkey Hsub w'.
  pose proof (chain_inv rs init init_inv) as Hw. fold w in Hw.
  destruct (register_registers r gvr w Hw Hkey Hsub) as (Hw' & Hb & Ho).
  fold w' in Hw', Hb, Ho.
  assert (Hin : gvr_GroupVersion gvr ∈ orderedGroupVersions (a w')).
  { rewrite Ho. apply observe_elem_of. }
  split; [done|]. split; [done|]. split; [by apply (inv_keys w' Hw')|done].
Qed.

Lemma orderedGroupVersions_invariant_witness :
  let w := chain [RWithResource widgets_v1] init in
  is_Some (APIs (register (RWithResourceAndStorage widgets_v2 3) w)
             !! mkGVR "apps" "v2" "widgets")
  /\ orderedGroupVersions (a (register (RWithResourceAndStorage widgets_v2 3) w))
     = [mkGV "apps" "v1"; mkGV "apps" "v2"].
Proof.
  intros w.
  destruct (orderedGroupVersions_invariant [RWithResource widgets_v1])
    as (_ & _ & _ & _ & _ & H).
  destruct (H (RWithResourceAndStorage widgets_v2 3) (mkGVR "apps" "v2" "widgets"))
    as (Hb & _ & _ & Ho).
  - reflexivity.
  - discriminate.
  - split; [exact Hb|]. etrans; [exact Ho|]. reflexivity.
Defined.

(** ** The version priorities that Build sets *)







(** ** Registering a key again, entry point by entry point *)

Lemma retrieve_after behave fuel gvr args w w' sp :
  APIs w' !! gvr = Some sp -> is_opaque sp = true ->
  invocations w' = invocations w ->
  exists w'',
    retrieve behave (S fuel) gvr args w' = Some (behave (invocations w) sp args, w'')
    /\ invocations w'' = invocations w ++ [(sp, args)].
Proof.
  intros Hb Ho Hi. rewrite (retrieve_opaque behave fuel gvr args w' sp Hb Ho).
  rewrite Hi. eexists. split; [done|]. simpl. by rewrite Hi.
Qed.

Lemma WithResourceAndStrategy_APIs obj strategy w :
  APIs (WithResourceAndStrategy obj strategy w)
  = if isObjectWithStatusSubResource obj
    then <[status_gvr (GetGroupVersionResource obj)
             := rest_NewStatusWithStrategy obj strategy]>
           (<[GetGroupVersionResource obj := rest_NewWithStrategy obj strategy]> (APIs w))
    else <[GetGroupVersionResource obj := rest_NewWithStrategy obj strategy]> (APIs w).
Proof.
  unfold WithResourceAndStrategy.
  destruct (isObjectWithStatusSubResource obj);
    by rewrite !forGroupVersionResource_APIs.
Qed.

Lemma WithResourceAndStorage_APIs obj fn w :
  APIs (WithResourceAndStorage obj fn w)
  = if isObjectWithStatusSubResource obj
    then <[status_gvr (GetGroupVersionResource obj) := rest_NewStatusWithFn obj fn]>
           (<[GetGroupVersionResource obj := rest_NewWithFn obj fn]> (APIs w))
    else <[GetGroupVersionResource obj := rest_NewWithFn obj fn]> (APIs w).
Proof.
  unfold WithResourceAndStorage.
  destruct (isObjectWithStatusSubResource obj);
    by rewrite !forGroupVersionResource_APIs.
Qed.

Lemma lookup_with_status {A} (gvr : GroupVersionResource) (b : bool) (x y : A)
    (m : gmap GroupVersionResource A) :
  (if b then <[status_gvr gvr := y]> (<[gvr := x]> m) else <[gvr := x]> m) !! gvr
  = Some x.
Proof.
  destruct b.
  - rewrite lookup_insert_ne by apply status_gvr_neq. apply lookup_insert_eq.
  - apply lookup_insert_eq.
Qed.

(** C3, as the code has it. A [GroupResource] that is registered keeps its
    provider through every later registration call: the entry of the storage
    map and the [singletonProvider] behind it do not change. A call for a key
    of that group-resource changes no binding of [apiserver.APIs] but that of
    the key it registers and, for
    [WithResourceAndStrategy] and [WithResourceAndStorage] on an object with a
    status sub-resource, that of its status key. The key is bound to the
    provider handed to [forGroupVersionResource]. [WithResource] and
    [WithSubResource] hand over the [Get] of the stored provider, so
    retrieval for the new version invokes the first factory. The other five
    entry points hand over a new factory ([WithResourceAndHandler] and
    [WithSubResourceAndHandler] that of the caller, the Strategy and Storage
    variants the one they build), and retrieval for the new version invokes
    that one, not the first. *)
Theorem reregistration_keeps_provider
    (behave : list (ResourceHandlerProvider * Args) -> ResourceHandlerProvider -> Args -> Result)
    (gr : GroupResource) (s : addr) (sv : singletonProvider) (w : World) :
  storage (a w) !! gr = Some s ->
  heap w !! s = Some sv ->
  (forall r, storage (a (register r w)) !! gr = Some s
             /\ heap (register r w) !! s = Some sv)
  /\ (forall gvr obj sp,
        APIs (forGroupVersionResource gvr obj sp w) !! gvr = Some sp
        /\ forall gvr', gvr' <> gvr ->
             APIs (forGroupVersionResource gvr obj sp w) !! gvr' = APIs w !! gvr')
  /\ (forall obj args fuel,
        gvr_GroupResource (GetGroupVersionResource obj) = gr ->
        Once_done sv = false -> is_opaque (Provider sv) = true ->
        exists w',
          retrieve behave (S (S fuel)) (GetGroupVersionResource obj) args
            (WithResource obj w)
          = Some (behave (invocations w) (Provider sv) args, w')
          /\ invocations w' = invocations w ++ [(Provider sv, args)])
  /\ (forall parent path request args fuel,
        gvr_GroupResource (subresource_gvr parent path) = gr ->
        Once_done sv = false -> is_opaque (Provider sv) = true ->
        exists w',
          retrieve behave (S (S fuel)) (subresource_gvr parent path) args
            (WithSubResource parent path request w)
          = Some (behave (invocations w) (Provider sv) args, w')
          /\ invocations w' = invocations w ++ [(Provider sv, args)])
  /\ (forall obj sp args fuel,
        gvr_GroupResource (GetGroupVersionResource obj) = gr ->
        is_opaque sp = true ->
        exists w',
          retrieve behave (S fuel) (GetGroupVersionResource obj) args
            (WithResourceAndHandler obj sp w)
          = Some (behave (invocations w) sp args, w')
          /\ invocations w' = invocations w ++ [(sp, args)])
  (* the bindings after each of the seven entry points *)
  /\ (forall obj,
        gvr_GroupResource (GetGroupVersionResource obj) = gr ->
        APIs (WithResource obj w)
        = <[GetGroupVersionResource obj := singletonProvider_Get s]> (APIs w))
  /\ (forall parent path request,
        gvr_GroupResource (subresource_gvr parent path) = gr ->
        APIs (WithSubResource parent path request w)
        = <[subresource_gvr parent path := singletonProvider_Get s]> (APIs w))
  /\ (forall obj sp,
        APIs (WithResourceAndHandler obj sp w)
        = <[GetGroupVersionResource obj := sp]> (APIs w))
  /\ (forall obj strategy,
        APIs (WithResourceAndStrategy obj strategy w)
        = if isObjectWithStatusSubResource obj
          then <[status_gvr (GetGroupVersionResource obj)
                   := rest_NewStatusWithStrategy obj strategy]>
                 (<[GetGroupVersionResource obj := rest_NewWithStrategy obj strategy]>
                    (APIs w))
          else <[GetGroupVersionResource obj := rest_NewWithStrategy obj strategy]>
                 (APIs w))
  /\ (forall obj fn,
        APIs (WithResourceAndStorage obj fn w)
        = if isObjectWithStatusSubResource obj
          then <[status_gvr (GetGroupVersionResource obj) := rest_NewStatusWithFn obj fn]>
                 (<[GetGroupVersionResource obj := rest_NewWithFn obj fn]> (APIs w))
          else <[GetGroupVersionResource obj := rest_NewWithFn obj fn]> (APIs w))
  /\ (forall parent path request strategy,
        APIs (WithSubResourceAndStrategy parent path request strategy w)
        = <[subresource_gvr parent path := rest_NewWithStrategy request strategy]>
            (APIs w))
  /\ (forall parent path request sp,
        APIs (WithSubResourceAndHandler parent path request sp w)
        = <[subresource_gvr parent path := sp]> (APIs w))
  (* retrieval after the entry points that build or take a new factory *)
  /\ (forall obj strategy args fuel,
        exists w',
          retrieve behave (S fuel) (GetGroupVersionResource obj) args
            (WithResourceAndStrategy obj strategy w)
          = Some (behave (invocations w) (rest_NewWithStrategy obj strategy) args, w')
          /\ invocations w'
             = invocations w ++ [(rest_NewWithStrategy obj strategy, args)])
  /\ (forall obj fn args fuel,
        exists w',
          retrieve behave (S fuel) (GetGroupVersionResource obj) args
            (WithResourceAndStorage obj fn w)
          = Some (behave (invocations w) (rest_NewWithFn obj fn) args, w')
          /\ invocations w' = invocations w ++ [(rest_NewWithFn obj fn, args)])
  /\ (forall parent path request strategy args fuel,
        exists w',
          retrieve behave (S fuel) (subresource_gvr parent path) args
            (WithSubResourceAndStrategy parent path request strategy w)
          = Some (behave (invocations w) (rest_NewWithStrategy request strategy) args, w')
          /\ invocations w'
             = invocations w ++ [(rest_NewWithStrategy request strategy, args)])
  /\ (forall parent path request sp args fuel,
        is_opaque sp = true ->
        exists w',
          retrieve behave (S fuel) (subresource_gvr parent path) args
            (WithSubResourceAndHandler parent path request sp w)
          = Some (behave (invocations w) sp args, w')
          /\ invocations w' = invocations w ++ [(sp, args)]).
Proof.
  intros Hgr Hs.
  destruct (reregistration_reuse behave gr s sv w Hgr Hs) as (H1 & H2 & H3 & H4 & H5).
  repeat (split; [done|]).
  assert (Hinv : forall r, invocations (register r w) = invocations w).
  { intros r. by destruct (register_lazy r w) as [-> _]. }
  split; [|split; [|split; [|split; [|split; [|split; [|split]]]]]].
  - intros obj <-. rewrite (WithResource_found obj w s Hgr).
    by rewrite forGroupVersionResource_APIs.
  - intros parent path request <-.
    rewrite (WithSubResource_found parent path request w s Hgr).
    by rewrite forGroupVersionResource_APIs.
  - intros obj sp. unfold WithResourceAndHandler.
    by rewrite forGroupVersionResource_APIs.
  - intros obj strategy. apply WithResourceAndStrategy_APIs.
  - intros obj fn. apply WithResourceAndStorage_APIs.
  - intros parent path request strategy. unfold WithSubResourceAndStrategy.
    by rewrite forGroupVersionResource_APIs.
  - intros parent path request sp. unfold WithSubResourceAndHandler.
    by rewrite forGroupVersionResource_APIs.
  - split; [|split; [|split]].
    + intros obj strategy args fuel. apply retrieve_after; [|done|].
      * rewrite WithResourceAndStrategy_APIs. apply lookup_with_status.
      * apply (Hinv (RWithResourceAndStrategy obj strategy)).
    + intros obj fn args fuel. apply retrieve_after; [|done|].
      * rewrite WithResourceAndStorage_APIs. apply lookup_with_status.
      * apply (Hinv (RWithResourceAndStorage obj fn)).
    + intros parent path request strategy args fuel. apply retrieve_after; [|done|].
      * unfold WithSubResourceAndStrategy. rewrite forGroupVersionResource_APIs.
        apply lookup_insert_eq.
      * apply (Hinv (RWithSubResourceAndStrategy parent path request strategy)).
    + intros parent path request sp args fuel Ho. apply retrieve_after; [|done|].
      * unfold WithSubResourceAndHandler. rewrite forGroupVersionResource_APIs.
        apply lookup_insert_eq.
      * apply (Hinv (RWithSubResourceAndHandler parent path request sp)).
Qed.

Lemma reregistration_keeps_provider_witness :
  let w := WithResource widgets_v1 init in
  let w' := WithResourceAndStrategy widgets_v2 7 w in
  storage (a w') !! mkGR "apps" "widgets" = Some 0
  /\ heap w' !! 0 = Some (new_singletonProvider (rest_New widgets_v1))
  /\ APIs w' !! mkGVR "apps" "v2" "widgets" = Some (rest_NewWithStrategy widgets_v2 7)
  /\ APIs w' !! mkGVR "apps" "v1" "widgets" = Some (rest_New widgets_v1).
Proof.
  intros w w'.
  destruct (reregistration_keeps_provider fresh_storage (mkGR "apps" "widgets") 0
              (new_singletonProvider (rest_New widgets_v1)) w eq_refl eq_refl)
    as (H & _ & _ & _ & _ & _ & _ & _ & HS & _).
  destruct (H (RWithResourceAndStrategy widgets_v2 7)) as [H1 H2].
  split; [exact H1|]. split; [exact H2|].
  subst w'. rewrite (HS widgets_v2 7). split; reflexivity.
Defined.
